(** * Provider connectivity detection (ConnectionsService): model and proofs

    A shallow embedding of [ConnectionsService] (the provider detection
    engine of the desktop shell) together with the properties its
    specification states about it.

    Conventions.
    - A JavaScript string is a [string]: a sequence of code units; the
      character classes of the source ([\s], [\d], [trim], [toLowerCase])
      are written out for code units below 256.
    - [null] and [undefined] are [None]; an optional field is an [option].
    - Numbers (exit codes, milliseconds, time stamps) are [Z].
    - The operating system is an environment [Env] that answers the two
      system calls of the service (the locate utility and [spawn]); the
      answers may depend on everything that was asked before.
    - Logging writes to no state the service reads and is left out. *)

From Stdlib Require Import ZArith Ascii String List Lia Bool.
From stdpp Require Import gmap strings list.

Local Open Scope string_scope.
Local Open Scope Z_scope.

(** ** JavaScript string primitives *)

Module Js.

Definition truthy (s : string) : bool :=
  match s with EmptyString => false | String _ _ => true end.

(** Truthiness of a [string | null] (or [string | undefined]) value. *)
Definition truthy_opt (o : option string) : bool :=
  match o with Some s => truthy s | None => false end.

Definition code (c : ascii) : nat := nat_of_ascii c.

(** [\d] *)
Definition is_digit (c : ascii) : bool :=
  (Nat.leb 48 (code c)) && (Nat.leb (code c) 57).

(** [\s], and the characters [trim] strips: TAB, LF, VT, FF, CR, SP,
    NBSP. *)
Definition is_space (c : ascii) : bool :=
  ((Nat.leb 9 (code c)) && (Nat.leb (code c) 13))
  || Nat.eqb (code c) 32 || Nat.eqb (code c) 160.

Fixpoint trimStart (s : string) : string :=
  match s with
  | EmptyString => EmptyString
  | String c r => if is_space c then trimStart r else s
  end.

Fixpoint trimEnd (s : string) : string :=
  match s with
  | EmptyString => EmptyString
  | String c r =>
      match trimEnd r with
      | EmptyString => if is_space c then EmptyString else String c EmptyString
      | r' => String c r'
      end
  end.

Definition trim (s : string) : string := trimEnd (trimStart s).

Definition lower_char (c : ascii) : ascii :=
  let n := code c in
  if ((Nat.leb 65 n) && (Nat.leb n 90))
     || ((Nat.leb 192 n) && (Nat.leb n 222) && negb (Nat.eqb n 215))
  then ascii_of_nat (n + 32) else c.

Fixpoint toLowerCase (s : string) : string :=
  match s with
  | EmptyString => EmptyString
  | String c r => String (lower_char c) (toLowerCase r)
  end.

Fixpoint endsWith (s suffix : string) : bool :=
  String.eqb s suffix ||
  match s with
  | EmptyString => false
  | String _ r => endsWith r suffix
  end.

(** [l.join(sep)]; an [undefined] element prints as the empty string. *)
Fixpoint join (sep : string) (l : list (option string)) : string :=
  match l with
  | [] => EmptyString
  | [x] => default EmptyString x
  | x :: r => default EmptyString x +:+ sep +:+ join sep r
  end.

(** The template literal [`${x}`] of a [string | undefined]. *)
Definition show (o : option string) : string := default "undefined" o.

Definition CR : ascii := ascii_of_nat 13.
Definition LF : ascii := ascii_of_nat 10.

(** [s.split(/\r?\n/)]; [cur] holds the current piece, reversed. *)
Fixpoint split_lines_acc (cur : list ascii) (s : string) : list string :=
  match s with
  | EmptyString => [string_of_list_ascii (rev cur)]
  | String c r =>
      if Ascii.eqb c LF then
        string_of_list_ascii (rev cur) :: split_lines_acc [] r
      else if Ascii.eqb c CR then
        match r with
        | String d r' =>
            if Ascii.eqb d LF then
              string_of_list_ascii (rev cur) :: split_lines_acc [] r'
            else split_lines_acc (c :: cur) r
        | EmptyString => split_lines_acc (c :: cur) r
        end
      else split_lines_acc (c :: cur) r
  end.

Definition split_lines (s : string) : list string := split_lines_acc [] s.

(** [s.replace(/c/g, f(c))] for a one-character pattern class. *)
Fixpoint replace_chars (hit : ascii -> bool) (f : ascii -> string)
    (s : string) : string :=
  match s with
  | EmptyString => EmptyString
  | String c r =>
      (if hit c then f c else String c EmptyString) +:+ replace_chars hit f r
  end.

Fixpoint exists_char (hit : ascii -> bool) (s : string) : bool :=
  match s with
  | EmptyString => false
  | String c r => hit c || exists_char hit r
  end.

End Js.

(** ** Data model *)

Inductive CliStatusCode := connected | missing | needs_key | error.

#[global] Instance CliStatusCode_eq_dec : EqDecision CliStatusCode.
Proof. solve_decision. Defined.

(** A JavaScript [Error]; [err_code] is the [code] of a
    [NodeJS.ErrnoException] and is absent on a plain [new Error(..)]. *)
Record JsError := mkError {
  err_message : string;
  err_code : option string;
}.

Definition new_Error (msg : string) : JsError :=
  {| err_message := msg; err_code := None |}.

(** [interface CommandResult].  [command] is typed [string]; it holds
    [undefined] when [tryCommands] indexes an empty command list. *)
Record CommandResult := mkResult {
  command : option string;
  success : bool;
  cr_error : option JsError;
  stdout : string;
  stderr : string;
  status : option Z;
  version : option string;
  resolvedPath : option string;
  timedOut : option bool;
  timeoutMs : option Z;
}.

(** [type CliDefinition]. *)
Record CliDefinition := mkDef {
  id : string;
  name : string;
  commands : list string;
  args : list string;
  docUrl : option string;
  installCommand : option string;
  detectable : option bool;
  statusResolver : option (CommandResult -> CliStatusCode);
  messageResolver : option (CommandResult -> option string);
}.

(** The part of a registry entry that [CLI_DEFINITIONS] reads.  The registry
    itself is an input of the service. *)
Record ProviderDefinition := mkProvider {
  p_id : string;
  p_name : string;
  p_commands : option (list string);
  p_versionArgs : option (list string);
  p_docUrl : option string;
  p_installCommand : option string;
  p_detectable : option bool;
}.

Definition CLI_DEFINITIONS (listDetectableProviders : list ProviderDefinition)
    : list CliDefinition :=
  map (fun provider =>
         {| id := p_id provider;
            name := p_name provider;
            commands := default [] (p_commands provider);
            args := default ["--version"] (p_versionArgs provider);
            docUrl := p_docUrl provider;
            installCommand := p_installCommand provider;
            detectable := p_detectable provider;
            statusResolver := None;
            messageResolver := None |})
      listDetectableProviders.

(** [interface ProviderStatus] of the status store. *)
Record ProviderStatus := mkStatus {
  installed : bool;
  path : option string;
  ps_version : option string;
  lastChecked : Z;
}.

Definition DEFAULT_TIMEOUT_MS : Z := 3000.

(** ** quoteForCmdExe *)

Definition DQUOTE : ascii := ascii_of_nat 34.

Definition one (c : ascii) : string := String c EmptyString.

(** The class of the third [replace]: the double quote and [^&|<>()]. *)
Definition cmd_meta (c : ascii) : bool :=
  existsb (Ascii.eqb c) (DQUOTE :: list_ascii_of_string "^&|<>()").

(** The class of the [test]: [\s], the class above, [%] and [!]. *)
Definition cmd_special (c : ascii) : bool :=
  Js.is_space c || cmd_meta c || Ascii.eqb c "%" || Ascii.eqb c "!".

Definition quoteForCmdExe (input : string) : string :=
  if Nat.eqb (String.length input) 0 then String DQUOTE (one DQUOTE)
  else if negb (Js.exists_char cmd_special input) then input
  else
    let s1 := Js.replace_chars (Ascii.eqb "%"%char) (fun _ => "%%") input in
    let s2 := Js.replace_chars (Ascii.eqb "!"%char) (fun _ => "^!") s1 in
    let s3 := Js.replace_chars cmd_meta (fun c => String "^" (one c)) s2 in
    String DQUOTE (s3 +:+ one DQUOTE).

(** ** extractVersion *)

(** The longest run of [\d] at the head of [s], and what follows it. *)
Fixpoint span_digits (s : string) : string * string :=
  match s with
  | EmptyString => (EmptyString, EmptyString)
  | String c r =>
      if Js.is_digit c
      then let '(d, rest) := span_digits r in (String c d, rest)
      else (EmptyString, s)
  end.

(** [\.]: what follows a leading dot. *)
Definition after_dot (s : string) : option string :=
  match s with
  | String c r => if Ascii.eqb c "." then Some r else None
  | EmptyString => None
  end.

(** One attempt of [/\d+\.\d+(\.\d+)?/] anchored at the head of [s]: both
    [\d+] are greedy, and the optional group is taken when it matches. *)
Definition match_version_here (s : string) : option string :=
  let '(d1, r1) := span_digits s in
  if negb (Js.truthy d1) then None
  else match after_dot r1 with
       | None => None
       | Some r1' =>
           let '(d2, r2) := span_digits r1' in
           if negb (Js.truthy d2) then None
           else match after_dot r2 with
                | None => Some (d1 +:+ "." +:+ d2)
                | Some r2' =>
                    let '(d3, _) := span_digits r2' in
                    if negb (Js.truthy d3) then Some (d1 +:+ "." +:+ d2)
                    else Some (d1 +:+ "." +:+ d2 +:+ "." +:+ d3)
                end
       end.

(** [output.match(/\d+\.\d+(\.\d+)?/)]: the attempt is made at each start
    position from the left; the first success is [matches[0]]. *)
Fixpoint regex_match_version (output : string) : option string :=
  match match_version_here output with
  | Some v => Some v
  | None =>
      match output with
      | EmptyString => None
      | String _ r => regex_match_version r
      end
  end.

Definition extractVersion (output : string) : option string :=
  if negb (Js.truthy output) then None
  else regex_match_version output.

(** [a || b] on [string | null] values. *)
Definition or_else (a b : option string) : option string :=
  if Js.truthy_opt a then a else b.

(** ** The operating system as seen by the service *)

Inductive SysCall :=
| ExecFileSync (file : string) (argv : list string)
| SpawnChild (file : string) (argv : list string).

(** What a spawned child does to the promise of [runCommand]: the event
    that resolves it first, with the output gathered until then and whether
    the timeout timer had already fired. *)
Inductive ProcOutcome :=
| SpawnThrew (e : JsError)
| ErrorEvent (e : JsError) (out err : string) (didTimeout : bool)
| CloseEvent (code : option Z) (out err : string) (didTimeout : bool).

Record Env := mkEnv {
  win32 : bool;
  env_SHELL : option string;
  env_ComSpec : option string;
  (** stdout of the utility, [None] when [execFileSync] throws *)
  execFileSync : list SysCall -> string -> list string -> option string;
  spawn : list SysCall -> string -> list string -> Z -> ProcOutcome;
}.

(** Computations that talk to the operating system: the calls made so far
    go in, the result and the extended list of calls come out. *)
Definition Probe (A : Type) : Type := list SysCall -> A * list SysCall.

Definition ret {A} (a : A) : Probe A := fun log => (a, log).

Definition bind {A B} (m : Probe A) (k : A -> Probe B) : Probe B :=
  fun log => let '(a, log') := m log in k a log'.

Notation "'let*' x ':=' m 'in' k" := (bind m (fun x => k))
  (at level 10, x name, m at level 100, k at level 200).

Definition run {A} (m : Probe A) : A := fst (m []).
Definition calls {A} (m : Probe A) : list SysCall := snd (m []).

Section Probing.

Variable env : Env.

Definition sys_execFileSync (file : string) (argv : list string)
    : Probe (option string) :=
  fun log => (execFileSync env log file argv, (log ++ [ExecFileSync file argv])%list).

Definition sys_spawn (file : string) (argv : list string) (timeout : Z)
    : Probe ProcOutcome :=
  fun log => (spawn env log file argv timeout, (log ++ [SpawnChild file argv])%list).

Definition resolveCommandPath (cmd : string) : Probe (option string) :=
  let resolver := if win32 env then "where" else "which" in
  let* result := sys_execFileSync resolver [cmd] in
  ret (match result with
       | Some result =>
           let lines := filter (fun l => Js.truthy l = true)
                               (map Js.trim (Js.split_lines result)) in
           head lines
       | None => None
       end).

(** The three [resolve(..)] sites of [runCommand]. *)
Definition settle (cmd : string) (resolved : option string) (timeout : Z)
    (o : ProcOutcome) : CommandResult :=
  match o with
  | CloseEvent code out err didTimeout =>
      let ok := negb didTimeout && bool_decide (code = Some 0) in
      let ver := or_else (extractVersion out) (extractVersion err) in
      {| command := Some cmd;
         success := ok;
         cr_error := if didTimeout then Some (new_Error "Command timeout")
                     else None;
         stdout := out;
         stderr := err;
         status := code;
         version := ver;
         resolvedPath := resolved;
         timedOut := Some didTimeout;
         timeoutMs := Some timeout |}
  | ErrorEvent e out err didTimeout =>
      {| command := Some cmd;
         success := false;
         cr_error := Some e;
         stdout := out;
         stderr := err;
         status := None;
         version := None;
         resolvedPath := resolved;
         timedOut := Some didTimeout;
         timeoutMs := Some timeout |}
  | SpawnThrew e =>
      {| command := Some cmd;
         success := false;
         cr_error := Some e;
         stdout := "";
         stderr := "";
         status := None;
         version := None;
         resolvedPath := resolved;
         timedOut := Some false;
         timeoutMs := Some timeout |}
  end.

(** [const child = shouldUseCmdExe ? spawn(ComSpec || 'cmd.exe', [..]) :
    spawn(command, args)], and the first event of the child. *)
Definition spawn_child (resolved : option string) (cmd : string)
    (argv : list string) (timeout : Z) : Probe ProcOutcome :=
  let executable := if Js.truthy_opt resolved then default cmd resolved
                    else cmd in
  let lowerExecutable := Js.toLowerCase executable in
  let shouldUseCmdExe :=
    win32 env && (Js.endsWith lowerExecutable ".cmd"
                  || Js.endsWith lowerExecutable ".bat") in
  if shouldUseCmdExe then
    sys_spawn
      (if Js.truthy_opt (env_ComSpec env)
       then default "cmd.exe" (env_ComSpec env) else "cmd.exe")
      ["/d"; "/s"; "/c";
       Js.join " " (map (fun a => Some (quoteForCmdExe a))
                        (executable :: argv))]
      timeout
  else sys_spawn cmd argv timeout.

Definition runCommand (cmd : string) (argv : list string) (timeout : Z)
    : Probe CommandResult :=
  let* resolved := resolveCommandPath cmd in
  let* outcome := spawn_child resolved cmd argv timeout in
  ret (settle cmd resolved timeout outcome).

(** [process.env.SHELL || (process.platform === 'win32' ? 'cmd.exe' : '/bin/sh')] *)
Definition login_shell : string :=
  if Js.truthy_opt (env_SHELL env)
  then default "/bin/sh" (env_SHELL env)
  else if win32 env then "cmd.exe" else "/bin/sh".

(** [shellArgs]; [cmd] may be [undefined] (see [tryCommands]). *)
Definition shell_argv (cmd : option string) (argv : list string)
    : list string :=
  let fullCmd := Js.join " " (cmd :: map Some argv) in
  if win32 env then ["/c"; fullCmd] else ["-lc"; fullCmd].

(** Run a command through the user's login shell. *)
Definition runCommandViaShell (cmd : option string) (argv : list string)
    (timeout : Z) : Probe CommandResult :=
  let shell := login_shell in
  let shellArgs := shell_argv cmd argv in
  let* result := runCommand shell shellArgs timeout in
  if bool_decide (status result = Some 127) then
    ret {| command := cmd;
           success := false;
           cr_error := Some (new_Error
                         (Js.show cmd +:+ ": command not found (shell fallback)"));
           stdout := stdout result;
           stderr := stderr result;
           status := None;
           version := version result;
           resolvedPath := None;
           timedOut := timedOut result;
           timeoutMs := timeoutMs result |}
  else
    ret {| command := cmd;
           success := success result;
           cr_error := cr_error result;
           stdout := stdout result;
           stderr := stderr result;
           status := status result;
           version := version result;
           resolvedPath := resolvedPath result;
           timedOut := timedOut result;
           timeoutMs := timeoutMs result |}.

(** [result.error && result.error.code !== 'ENOENT'] *)
Definition error_other_than_ENOENT (result : CommandResult) : bool :=
  match cr_error result with
  | Some e => negb (bool_decide (err_code e = Some "ENOENT"))
  | None => false
  end.

(** The [for] loop of [tryCommands]; [fallback] is what follows it. *)
Fixpoint tryCommands_loop (cmds : list string) (argv : list string)
    (timeout : Z) (fallback : Probe CommandResult) : Probe CommandResult :=
  match cmds with
  | [] => fallback
  | cmd :: rest =>
      let* result := runCommand cmd argv timeout in
      if success result then ret result
      else if error_other_than_ENOENT result then ret result
      else tryCommands_loop rest argv timeout fallback
  end.

(** [def.args] is never nullish, so [def.args ?? ['--version']] is
    [def.args]; [def.commands[def.commands.length - 1]] is [undefined] on
    an empty list. *)
Definition tryCommands (def : CliDefinition) (timeout : Z)
    : Probe CommandResult :=
  let lastCommand := last (commands def) in
  tryCommands_loop (commands def) (args def) timeout
    (runCommandViaShell lastCommand (args def) timeout).

End Probing.

(** ** Classification *)

Definition is_true (o : option bool) : bool := default false o.

Definition resolveStatus (def : CliDefinition) (result : CommandResult)
    : CliStatusCode :=
  match statusResolver def with
  | Some resolver => resolver result
  | None =>
      if success result then connected
      else if Js.truthy_opt (resolvedPath result) then connected
      else if is_true (timedOut result) && Js.truthy (stdout result)
      then connected
      else if bool_decide (status result <> None)
              && negb (is_true (timedOut result))
              && (Js.truthy (stdout result) || Js.truthy (stderr result))
      then connected
      else match cr_error result with Some _ => error | None => missing end
  end.

Definition resolveMessage (def : CliDefinition) (result : CommandResult)
    (statusCode : CliStatusCode) : option string :=
  if bool_decide (id def = "codex") then
    if bool_decide (statusCode = connected) then None
    else Some "Codex CLI not detected. Install @openai/codex to enable Codex agents."
  else
    match messageResolver def with
    | Some resolver => resolver result
    | None =>
        if bool_decide (statusCode = missing)
        then Some (name def +:+ " was not found in PATH.")
        else if bool_decide (statusCode = error) then
          if Js.truthy (Js.trim (stderr result))
          then Some (Js.trim (stderr result))
          else if Js.truthy (Js.trim (stdout result))
          then Some (Js.trim (stdout result))
          else match cr_error result with
               | Some e => Some (err_message e)
               | None => None
               end
        else None
    end.

(** ** The service: retry bookkeeping, status store, broadcast *)

Inductive Reason := bootstrap | manual | timeout_retry.

#[global] Instance Reason_eq_dec : EqDecision Reason.
Proof. solve_decision. Defined.

(** [opts?: { timeoutMs?: number; allowRetry?: boolean }] *)
Record CheckOpts := mkOpts {
  opt_timeoutMs : option Z;
  opt_allowRetry : option bool;
}.

(** A window of the application; [send] throws on a destroyed one. *)
Record BrowserWindow := mkWindow {
  win_id : nat;
  send_throws : bool;
}.

Record Sent := mkSent {
  to_window : nat;
  channel : string;
  payload : string * ProviderStatus;
}.

(** The fields of [ConnectionsService] and the host state it writes: the
    armed timeouts of [setTimeout] (with the provider id and the retry
    timeout their callback closes over), the status store and the messages
    delivered to windows. *)
Record Service := mkService {
  timeoutRetryPending : gset string;
  timeoutRetryTimers : gmap string nat;
  armed : gmap nat (string * Z);
  timerSeq : nat;
  providerStatusCache : gmap string ProviderStatus;
  sent : list Sent;
}.

(** The service as it is constructed.  The status store is empty until
    [providerStatusCache.load()] has read what was persisted ([loaded]
    below). *)
Definition new_service : Service :=
  {| timeoutRetryPending := ∅; timeoutRetryTimers := ∅; armed := ∅;
     timerSeq := 0%nat; providerStatusCache := ∅; sent := [] |}.

Definition clearTimeoutRetry (providerId : string) (s : Service) : Service :=
  let s1 :=
    match timeoutRetryTimers s !! providerId with
    | Some pendingTimer =>
        {| timeoutRetryPending := timeoutRetryPending s;
           timeoutRetryTimers := delete providerId (timeoutRetryTimers s);
           armed := delete pendingTimer (armed s);
           timerSeq := timerSeq s;
           providerStatusCache := providerStatusCache s;
           sent := sent s |}
    | None => s
    end in
  {| timeoutRetryPending := timeoutRetryPending s1 ∖ {[providerId]};
     timeoutRetryTimers := timeoutRetryTimers s1;
     armed := armed s1;
     timerSeq := timerSeq s1;
     providerStatusCache := providerStatusCache s1;
     sent := sent s1 |}.

Definition emitStatusUpdate (providerId : string) (st : ProviderStatus)
    (windows : list BrowserWindow) : list Sent :=
  flat_map (fun win =>
              if send_throws win then []
              else [ {| to_window := win_id win;
                        channel := "provider:status-updated";
                        payload := (providerId, st) |} ])
           windows.

(** Modelled from the spec: the status store ([./providerStatusCache], an
    external collaborator whose code is not among the sources) is a
    key-value store with one Provider Status per provider id;
    [set(id, status)] overwrites the entry of [id] wholesale. *)
Definition providerStatusCache_set (providerId : string) (st : ProviderStatus)
    (store : gmap string ProviderStatus) : gmap string ProviderStatus :=
  <[providerId := st]> store.

(** [now] is [Date.now()], [windows] is [BrowserWindow.getAllWindows()]. *)
Definition cacheStatus (providerId : string) (result : CommandResult)
    (statusCode : CliStatusCode) (now : Z) (windows : list BrowserWindow)
    (s : Service) : Service :=
  let st := {| installed := bool_decide (statusCode = connected);
               path := resolvedPath result;
               ps_version := version result;
               lastChecked := now |} in
  {| timeoutRetryPending := timeoutRetryPending s;
     timeoutRetryTimers := timeoutRetryTimers s;
     armed := armed s;
     timerSeq := timerSeq s;
     providerStatusCache :=
       providerStatusCache_set providerId st (providerStatusCache s);
     sent := (sent s ++ emitStatusUpdate providerId st windows)%list |}.

(** A [checkProvider] call suspended at [await this.tryCommands(..)].
    [chk_finally] says that the call was made by the retry timer, whose
    callback chains [.finally(() => timeoutRetryPending.delete(id))]. *)
Record Check := mkCheck {
  chk_def : CliDefinition;
  chk_providerId : string;
  chk_reason : Reason;
  chk_timeoutMs : Z;
  chk_opts : option CheckOpts;
  chk_finally : bool;
}.

Section Service.

(** [CLI_DEFINITIONS] *)
Variable defs : list CliDefinition.

(** [checkProvider] up to its first [await]: [None] when the provider is
    unknown, else the suspended call. *)
Definition checkProvider_begin (providerId : string) (reason : Reason)
    (opts : option CheckOpts) (s : Service) : option Check * Service :=
  match find (fun d => bool_decide (id d = providerId)) defs with
  | None => (None, s)
  | Some def =>
      let s1 :=
        if bool_decide (reason <> timeout_retry)
           && bool_decide (providerId ∈ timeoutRetryPending s)
        then clearTimeoutRetry providerId s else s in
      let timeout := default DEFAULT_TIMEOUT_MS (opts ≫= opt_timeoutMs) in
      (Some {| chk_def := def; chk_providerId := providerId;
               chk_reason := reason; chk_timeoutMs := timeout;
               chk_opts := opts; chk_finally := false |}, s1)
  end.

(** [commandResult.timedOut && (resolvedPath || stdout)
     && opts?.allowRetry !== false] *)
Definition shouldRetryTimeout (commandResult : CommandResult)
    (opts : option CheckOpts) : bool :=
  is_true (timedOut commandResult)
  && (Js.truthy_opt (resolvedPath commandResult)
      || Js.truthy (stdout commandResult))
  && negb (bool_decide (opts ≫= opt_allowRetry = Some false)).

(** [checkProvider] from the [await] on, once [tryCommands] has produced
    [commandResult]: classify, persist and broadcast, then decide on the
    retry.  The warning logged for [isActualError] changes no state. *)
Definition checkProvider_resume (c : Check) (commandResult : CommandResult)
    (now : Z) (windows : list BrowserWindow) (s : Service) : Service :=
  let statusCode := resolveStatus (chk_def c) commandResult in
  let s1 := cacheStatus (id (chk_def c)) commandResult statusCode now windows s in
  if shouldRetryTimeout commandResult (chk_opts c)
     && negb (bool_decide (chk_providerId c ∈ timeoutRetryPending s1))
  then
    let retryTimeoutMs := Z.max (chk_timeoutMs c * 2) 12000 in
    let retryTimer := timerSeq s1 in
    {| timeoutRetryPending := timeoutRetryPending s1 ∪ {[chk_providerId c]};
       timeoutRetryTimers :=
         <[chk_providerId c := retryTimer]> (timeoutRetryTimers s1);
       armed := <[retryTimer := (chk_providerId c, retryTimeoutMs)]> (armed s1);
       timerSeq := S (timerSeq s1);
       providerStatusCache := providerStatusCache s1;
       sent := sent s1 |}
  else s1.

(** The [.finally] of the retry timer's callback. *)
Definition retry_finally (providerId : string) (s : Service) : Service :=
  {| timeoutRetryPending := timeoutRetryPending s ∖ {[providerId]};
     timeoutRetryTimers := timeoutRetryTimers s;
     armed := armed s;
     timerSeq := timerSeq s;
     providerStatusCache := providerStatusCache s;
     sent := sent s |}.

(** The delay of the retry timer.  Time is not measured here: an armed
    timeout may expire at any later turn of the loop. *)
Definition retryDelayMs : Z := 1500.

(** The callback of the retry timer, run when the armed timeout
    [retryTimer] expires: it forgets the handle and calls [checkProvider]
    again.  With an unknown provider that call returns at once and the
    [.finally] runs right away. *)
Definition retry_callback (retryTimer : nat) (s : Service)
    : option Check * Service :=
  match armed s !! retryTimer with
  | None => (None, s)
  | Some (providerId, retryTimeoutMs) =>
      let s1 := {| timeoutRetryPending := timeoutRetryPending s;
                   timeoutRetryTimers := delete providerId (timeoutRetryTimers s);
                   armed := delete retryTimer (armed s);
                   timerSeq := timerSeq s;
                   providerStatusCache := providerStatusCache s;
                   sent := sent s |} in
      match checkProvider_begin providerId timeout_retry
              (Some {| opt_timeoutMs := Some retryTimeoutMs;
                       opt_allowRetry := Some false |}) s1 with
      | (Some c, s2) =>
          (Some {| chk_def := chk_def c; chk_providerId := chk_providerId c;
                   chk_reason := chk_reason c; chk_timeoutMs := chk_timeoutMs c;
                   chk_opts := chk_opts c; chk_finally := true |}, s2)
      | (None, s2) => (None, retry_finally providerId s2)
      end
  end.

(** *** The event loop

    The service runs on one thread; between two suspension points nothing
    else runs.  A [System] is the service with the calls that are
    suspended in their probe; an [Event] is one turn of the loop. *)
Record System := mkSystem {
  service : Service;
  inflight : gmap nat Check;
  checkSeq : nat;
}.

Inductive Event :=
(** somebody calls [checkProvider(providerId, reason, opts)] *)
| Call (providerId : string) (reason : Reason) (opts : option CheckOpts)
(** the probe of the suspended call [c] finishes; [env] is how the
    operating system answered it *)
| Settle (c : nat) (env : Env) (now : Z) (windows : list BrowserWindow)
(** the armed timeout [retryTimer] expires *)
| Fire (retryTimer : nat).

Definition suspend (oc : option Check) (s : Service) (sys : System) : System :=
  match oc with
  | Some c => {| service := s;
                 inflight := <[checkSeq sys := c]> (inflight sys);
                 checkSeq := S (checkSeq sys) |}
  | None => {| service := s; inflight := inflight sys;
               checkSeq := checkSeq sys |}
  end.

Definition step (sys : System) (ev : Event) : System :=
  match ev with
  | Call providerId reason opts =>
      let '(oc, s) := checkProvider_begin providerId reason opts (service sys) in
      suspend oc s sys
  | Settle n env now windows =>
      match inflight sys !! n with
      | None => sys
      | Some c =>
          let commandResult := run (tryCommands env (chk_def c) (chk_timeoutMs c)) in
          let s1 := checkProvider_resume c commandResult now windows (service sys) in
          let s2 := if chk_finally c then retry_finally (chk_providerId c) s1
                    else s1 in
          {| service := s2; inflight := delete n (inflight sys);
             checkSeq := checkSeq sys |}
      end
  | Fire retryTimer =>
      let '(oc, s) := retry_callback retryTimer (service sys) in
      suspend oc s sys
  end.

Definition boot : System :=
  {| service := new_service; inflight := ∅; checkSeq := 0%nat |}.

Definition exec (evs : list Event) : System := fold_left step evs boot.

(** The armed retry timers of one provider. *)
Definition armed_for (providerId : string) (s : Service) : list nat :=
  map fst (filter (fun kv => fst (snd kv) = providerId)
                  (map_to_list (armed s))).

End Service.

(** ** The specification's vocabulary

    The definitions below follow the words of the specification; the
    theorems compare them with the definitions above, which follow the
    code. *)

(** A resolved path is an absolute path or null, never the empty string:
    [resolveCommandPath] returns the first non-empty line of the locate
    utility or null, so every Command Result the service builds is of this
    kind ([tryCommands_wf] below). *)
Definition path_wf (r : CommandResult) : Prop := resolvedPath r <> Some "".

(** The ordered classification policy of section 4.5. *)
Definition status_policy (r : CommandResult) : CliStatusCode :=
  if success r then connected
  else if bool_decide (resolvedPath r <> None) then connected
  else if bool_decide (timedOut r = Some true ∧ stdout r <> "") then connected
  else if bool_decide (status r <> None ∧ timedOut r <> Some true
                       ∧ (stdout r <> "" ∨ stderr r <> ""))
  then connected
  else if bool_decide (is_Some (cr_error r)) then error
  else missing.

Definition first_nonempty (l : list string) : option string :=
  head (filter (fun s => s <> "") l).

Definition not_found_message (def : CliDefinition) : string :=
  name def +:+ " was not found in PATH.".

(** Message resolution as section 4.5 words it. *)
Definition message_policy (def : CliDefinition) (r : CommandResult)
    (st : CliStatusCode) : option string :=
  match messageResolver def with
  | Some resolver => resolver r
  | None =>
      if bool_decide (st = missing) then Some (not_found_message def)
      else if bool_decide (st = error) then
        first_nonempty ([stderr r; stdout r]
                        ++ match cr_error r with
                           | Some e => [err_message e]
                           | None => []
                           end)%list
      else None
  end.

Definition codex_message : string :=
  "Codex CLI not detected. Install @openai/codex to enable Codex agents.".

(** Message resolution as the code has it by design: the branch for the
    provider [codex] comes first, the two streams are compared and returned
    with surrounding white space removed, and an attached error contributes
    its message as it is. *)
Definition message_policy_by_design (def : CliDefinition) (r : CommandResult)
    (st : CliStatusCode) : option string :=
  if bool_decide (id def = "codex") then
    if bool_decide (st = connected) then None else Some codex_message
  else
    match messageResolver def with
    | Some resolver => resolver r
    | None =>
        if bool_decide (st = missing) then Some (not_found_message def)
        else if bool_decide (st = error) then
          match first_nonempty [Js.trim (stderr r); Js.trim (stdout r)] with
          | Some m => Some m
          | None => err_message <$> cr_error r
          end
        else None
    end.

(** *** Version tokens: the language of [\d+\.\d+(\.\d+)?] *)

Fixpoint all_digits (s : string) : bool :=
  match s with
  | EmptyString => true
  | String c r => Js.is_digit c && all_digits r
  end.

Definition head_nondigit (r : string) : Prop :=
  match r with
  | EmptyString => True
  | String c _ => Js.is_digit c = false
  end.

(** [\d+] *)
Definition digits1 (s : string) : Prop := s <> "" ∧ all_digits s = true.

Definition is_version_token (v : string) : Prop :=
  ∃ d1 d2, digits1 d1 ∧ digits1 d2 ∧
    (v = d1 +:+ "." +:+ d2
     ∨ ∃ d3, digits1 d3 ∧ v = d1 +:+ "." +:+ d2 +:+ "." +:+ d3).

(** [v] is a match of the pattern in [s] that starts at offset [n]. *)
Definition match_at (n : nat) (v s : string) : Prop :=
  is_version_token v ∧
  ∃ before after, s = before +:+ v +:+ after ∧ String.length before = n.

(** [v] is the first match in [s]: no match starts further left, and of the
    matches that start where [v] does none is longer (the quantifiers of the
    pattern are greedy). *)
Definition first_match (s v : string) : Prop :=
  ∃ n, match_at n v s ∧
    ∀ n' v', match_at n' v' s →
      (n <= n')%nat ∧ (n' = n → (String.length v' <= String.length v)%nat).

Definition no_match (s : string) : Prop := ∀ n v, ¬ match_at n v s.

(** The version field: first match in stdout, else in stderr, else null. *)
Definition version_spec (out err : string) (v : option string) : Prop :=
  (∃ w, v = Some w ∧ first_match out w)
  ∨ (∃ w, v = Some w ∧ no_match out ∧ first_match err w)
  ∨ (v = None ∧ no_match out ∧ no_match err).

(** *** The probe cascade *)

(** The event that ends the probe of [cmd] started after the calls [log]. *)
Definition probe_outcome (env : Env) (cmd : string) (argv : list string)
    (timeout : Z) (log : list SysCall) : ProcOutcome :=
  let '(resolved, log1) := resolveCommandPath env cmd log in
  fst (spawn_child env resolved cmd argv timeout log1).

(** Try each command of [cmds] through [runCommand], one after the other. *)
Fixpoint probe_each (env : Env) (cmds : list string) (argv : list string)
    (timeout : Z) : Probe (list CommandResult) :=
  match cmds with
  | [] => ret []
  | cmd :: rest =>
      let* r := runCommand env cmd argv timeout in
      let* rs := probe_each env rest argv timeout in
      ret (r :: rs)
  end.

(** The probe failed and its error, if any, is the file-not-found one. *)
Definition passed_over (r : CommandResult) : Prop :=
  success r = false ∧ ∀ e, cr_error r = Some e → err_code e = Some "ENOENT".

(** The probe failed with the file-not-found error. *)
Definition failed_not_found (r : CommandResult) : Prop :=
  success r = false ∧ ∃ e, cr_error r = Some e ∧ err_code e = Some "ENOENT".

(** The probe failed with an attached error other than file-not-found. *)
Definition failed_otherwise (r : CommandResult) : Prop :=
  success r = false ∧ ∃ e, cr_error r = Some e ∧ err_code e <> Some "ENOENT".

(** The scenario of a probe that is not on the PATH: started after the
    calls [log], every candidate has no resolved path and fails to spawn
    with ENOENT, and the shell of the fallback exits with 127. *)
Definition not_found_scenario (env : Env) (def : CliDefinition) (t : Z)
    (log : list SysCall) : Prop :=
  ∃ rs log1,
    probe_each env (commands def) (args def) t log = (rs, log1)
    ∧ Forall (fun r => resolvedPath r = None ∧ failed_not_found r) rs
    ∧ status (fst (runCommand env (login_shell env)
                     (shell_argv env (last (commands def)) (args def)) t log1))
      = Some 127.

(** The error the fallback attaches in its 127 branch. *)
Definition shell_fallback_error (cmd : option string) : JsError :=
  new_Error (Js.show cmd +:+ ": command not found (shell fallback)").

(** The status a completed check persists. *)
Definition persisted_status (def : CliDefinition) (r : CommandResult)
    (now : Z) : ProviderStatus :=
  {| installed := bool_decide (resolveStatus def r = connected);
     path := resolvedPath r;
     ps_version := version r;
     lastChecked := now |}.

(** *** The retry scheduler *)

(** Timer handles are fresh: every armed timeout was handed out before. *)
Definition handles_fresh (s : Service) : Prop :=
  ∀ k v, armed s !! k = Some v -> (k < timerSeq s)%nat.

(** A retry is pending for provider [p], the state pending-retry of
    section 4.6: one of its retry timers is armed and waits for its delay,
    or the check such a timer has started is not completed yet. *)
Definition retry_pending (p : string) (sys : System) : Prop :=
  (∃ k ms, armed (service sys) !! k = Some (p, ms))
  ∨ (∃ n c, inflight sys !! n = Some c
            ∧ chk_providerId c = p ∧ chk_finally c = true).

(** The conditions under which section 4.6 schedules a retry when the
    check [c] completes with the result [r]. *)
Definition retry_wanted (c : Check) (r : CommandResult) (sys : System) : Prop :=
  timedOut r = Some true
  ∧ (resolvedPath r <> None ∨ stdout r <> "")
  ∧ chk_opts c ≫= opt_allowRetry <> Some false
  ∧ ¬ retry_pending (chk_providerId c) sys.

(** What [checkProvider] tests in their place: the first three conditions
    are [shouldRetryTimeout], the last one is the flag of the provider in
    [timeoutRetryPending]. *)
Definition retry_tested (c : Check) (r : CommandResult) (s : Service) : Prop :=
  timedOut r = Some true
  ∧ (resolvedPath r <> None ∨ stdout r <> "")
  ∧ chk_opts c ≫= opt_allowRetry <> Some false
  ∧ chk_providerId c ∉ timeoutRetryPending s.

(** The suspended call the retry timer makes for provider [p]. *)
Definition retry_check (def : CliDefinition) (p : string) (ms : Z) : Check :=
  {| chk_def := def; chk_providerId := p; chk_reason := timeout_retry;
     chk_timeoutMs := ms;
     chk_opts := Some {| opt_timeoutMs := Some ms; opt_allowRetry := Some false |};
     chk_finally := true |}.

(** ** Sample providers and environments *)

Definition ENOENT (file : string) : JsError :=
  {| err_message := "spawn " +:+ file +:+ " ENOENT"; err_code := Some "ENOENT" |}.

Definition plain_def (i n : string) (cmds : list string) : CliDefinition :=
  {| id := i; name := n; commands := cmds; args := ["--version"];
     docUrl := None; installCommand := None; detectable := Some true;
     statusResolver := None; messageResolver := None |}.

(** A tool that is installed, slow to start: killed by the timeout. *)
Definition env_slow : Env :=
  {| win32 := false; env_SHELL := Some "/bin/zsh"; env_ComSpec := None;
     execFileSync := fun _ _ _ => Some "/usr/local/bin/x";
     spawn := fun _ _ _ _ => CloseEvent None "" "" true |}.

(** The same tool answering in time. *)
Definition env_ready : Env :=
  {| win32 := false; env_SHELL := Some "/bin/zsh"; env_ComSpec := None;
     execFileSync := fun _ _ _ => Some "/usr/local/bin/x";
     spawn := fun _ _ _ _ => CloseEvent (Some 0) "v2.3.1" "" false |}.

(** Nothing but [/bin/sh] is on the PATH; the shell reports 127. *)
Definition env_absent : Env :=
  {| win32 := false; env_SHELL := None; env_ComSpec := None;
     execFileSync := fun _ _ argv =>
       if bool_decide (argv = ["/bin/sh"]) then Some "/bin/sh" else None;
     spawn := fun _ file _ _ =>
       if bool_decide (file = "/bin/sh")
       then CloseEvent (Some 127) "" "sh: 1: foo: not found" false
       else ErrorEvent (ENOENT file) "" "" false |}.

(** A Windows host: [cmd.exe] is found and exits with 1 on a bad line. *)
Definition env_windows : Env :=
  {| win32 := true; env_SHELL := None; env_ComSpec := None;
     execFileSync := fun _ _ argv =>
       if bool_decide (argv = ["cmd.exe"])
       then Some "C:\Windows\System32\cmd.exe" else None;
     spawn := fun _ file _ _ =>
       if bool_decide (file = "cmd.exe")
       then CloseEvent (Some 1) "" "'--version' is not recognized" false
       else ErrorEvent (ENOENT file) "" "" false |}.

(** The first candidate is missing, the second one exists but cannot be
    executed, the third one is never reached. *)
Definition env_denied : Env :=
  {| win32 := false; env_SHELL := None; env_ComSpec := None;
     execFileSync := fun _ _ argv =>
       if bool_decide (argv = ["b"]) then Some "/opt/b" else None;
     spawn := fun _ file _ _ =>
       if bool_decide (file = "b")
       then ErrorEvent {| err_message := "spawn b EACCES";
                          err_code := Some "EACCES" |} "" "" false
       else ErrorEvent (ENOENT file) "" "" false |}.

Definition def_x : CliDefinition := plain_def "x" "X" ["x"].
Definition def_foo : CliDefinition := plain_def "foo" "Foo" ["foo"].
Definition def_abc : CliDefinition := plain_def "abc" "Abc" ["a"; "b"; "c"].
Definition def_codex : CliDefinition := plain_def "codex" "Codex" ["codex"].
Definition def_nocmd : CliDefinition := plain_def "ghost" "Ghost" [].

(** The suspended manual check of [def_x]. *)
Definition check_x : Check :=
  {| chk_def := def_x; chk_providerId := "x"; chk_reason := manual;
     chk_timeoutMs := 3000; chk_opts := None; chk_finally := false |}.

(** A probe that found nothing and attached no error. *)
Definition result_blank : CommandResult :=
  {| command := Some "x"; success := false; cr_error := None; stdout := "";
     stderr := ""; status := None; version := None; resolvedPath := None;
     timedOut := Some false; timeoutMs := Some 3000 |}.

(** Four turns of the loop: a manual check times out, its retry fires and
    is in flight, and two more manual checks are requested. *)
Definition trace_four_checks : list (Event) :=
  [ Call "x" manual None; Settle 0 env_slow 3000 []; Fire 0;
    Call "x" manual None; Call "x" manual None ].

(** ... the first of the two times out, the retry answers, the second of
    the two times out. *)
Definition trace_two_timers : list Event :=
  (trace_four_checks
   ++ [ Settle 2 env_slow 8000 []; Settle 1 env_ready 8200 [];
        Settle 3 env_slow 8500 [] ])%list.

(** ** More of the service, and the vocabulary of its properties *)

(** *** quoteForCmdExe: what its three replacements do, and their inverse *)

(** Put [e] in front of every character of the class [hit]. *)
Definition escape_with (e : ascii) (hit : ascii -> bool) (s : string) : string :=
  Js.replace_chars hit (fun c => String e (one c)) s.

(** Read back a string written by [escape_with e hit]: an [e] that stands
    in front of a character of the class is dropped. *)
Fixpoint unescape (e : ascii) (hit : ascii -> bool) (s : string) : string :=
  match s with
  | EmptyString => EmptyString
  | String c r =>
      if Ascii.eqb c e then
        match r with
        | String d r' =>
            if hit d then String d (unescape e hit r')
            else String c (unescape e hit r)
        | EmptyString => String c EmptyString
        end
      else String c (unescape e hit r)
  end.

Fixpoint drop_last (s : string) : string :=
  match s with
  | EmptyString => EmptyString
  | String c r =>
      match r with
      | EmptyString => EmptyString
      | String _ _ => String c (drop_last r)
      end
  end.

(** Read back an argument quoted by [quoteForCmdExe]. *)
Definition unquoteCmdExe (q : string) : string :=
  match q with
  | EmptyString => EmptyString
  | String c r =>
      if Ascii.eqb c DQUOTE then
        unescape "%" (Ascii.eqb "%")
          (unescape "^" (Ascii.eqb "!")
             (unescape "^" cmd_meta (drop_last r)))
      else q
  end.

(** Read from the left, with a caret taking the character after it along:
    no character of the class [cmd_meta] stands bare, no caret dangles. *)
Fixpoint caret_escaped (s : string) : bool :=
  match s with
  | EmptyString => true
  | String c r =>
      if Ascii.eqb c "^" then
        match r with
        | String _ r' => caret_escaped r'
        | EmptyString => false
        end
      else negb (cmd_meta c) && caret_escaped r
  end.

(** Every percent sign is followed by a second one that belongs to it. *)
Fixpoint percents_doubled (s : string) : bool :=
  match s with
  | EmptyString => true
  | String c r =>
      if Ascii.eqb c "%" then
        match r with
        | String d r' => Ascii.eqb d "%" && percents_doubled r'
        | EmptyString => false
        end
      else percents_doubled r
  end.

(** *** The system calls of a probe *)

(** [process.platform === 'win32' ? 'where' : 'which'] *)
Definition locate_utility (env : Env) : string :=
  if win32 env then "where" else "which".

(** The system calls of a run of probes, one probe per name: the locate
    utility is asked for the name, then one child is spawned; on a host
    other than win32 the child is the name itself. *)
Inductive probe_calls (env : Env) : list string -> list SysCall -> Prop :=
| probe_calls_nil : probe_calls env [] []
| probe_calls_cons (cmd file : string) (argv : list string)
    (names : list string) (rest : list SysCall) :
    (win32 env = false -> file = cmd) ->
    probe_calls env names rest ->
    probe_calls env (cmd :: names)
      (ExecFileSync (locate_utility env) [cmd] :: SpawnChild file argv :: rest).

(** *** Command Results the service builds *)

(** What each probe gives, whatever the command. *)
Definition probe_consistent (t : Z) (r : CommandResult) : Prop :=
  (success r = true ->
   status r = Some 0 ∧ cr_error r = None ∧ timedOut r = Some false)
  ∧ (timedOut r = Some true -> success r = false ∧ is_Some (cr_error r))
  ∧ is_Some (timedOut r)
  ∧ timeoutMs r = Some t
  ∧ (∀ v, version r = Some v -> is_version_token v).

(** What every Command Result of a cascade run with timeout [t] for [def]
    satisfies. *)
Definition result_consistent (def : CliDefinition) (t : Z)
    (r : CommandResult) : Prop :=
  (success r = true ->
   status r = Some 0 ∧ cr_error r = None ∧ timedOut r = Some false)
  ∧ (timedOut r = Some true -> success r = false ∧ is_Some (cr_error r))
  ∧ is_Some (timedOut r)
  ∧ timeoutMs r = Some t
  ∧ (∀ v, version r = Some v -> is_version_token v)
  ∧ ((∃ cmd, command r = Some cmd ∧ In cmd (commands def))
     ∨ command r = last (commands def)).

(** [isActualError] of [checkProvider]: the condition under which the
    warning [provider:error] is logged. *)
Definition isActualError (statusCode : CliStatusCode)
    (commandResult : CommandResult) : bool :=
  (bool_decide (statusCode = error) || bool_decide (statusCode = needs_key))
  && bool_decide (resolvedPath commandResult <> None).

(** A candidate that answers although [which] does not find it: it prints a
    version and exits with 1; the shell reports 127. *)
Definition env_exit1 : Env :=
  {| win32 := false; env_SHELL := None; env_ComSpec := None;
     execFileSync := fun _ _ argv =>
       if bool_decide (argv = ["/bin/sh"]) then Some "/bin/sh" else None;
     spawn := fun _ file _ _ =>
       if bool_decide (file = "/bin/sh")
       then CloseEvent (Some 127) "" "sh: 1: x: not found" false
       else CloseEvent (Some 1) "x 1.0.0" "" false |}.

(** *** States the service can reach *)

(** [CLI_DEFINITIONS.find((d) => d.id === p)] finds a definition. *)
Definition known (defs : list CliDefinition) (p : string) : Prop :=
  ∃ def, find (fun d => bool_decide (id d = p)) defs = Some def.

(** The parts of the invariant that speak of the service alone. *)
Definition service_part (defs : list CliDefinition) (s : Service) : Prop :=
  (∀ p k, timeoutRetryTimers s !! p = Some k ->
          ∃ ms, armed s !! k = Some (p, ms))
  ∧ (∀ k p ms, armed s !! k = Some (p, ms) -> 12000 <= ms ∧ known defs p)
  ∧ (∀ p, p ∈ timeoutRetryPending s -> known defs p).

(** What holds of the service after any sequence of turns of the loop. *)
Definition service_invariant (defs : list CliDefinition) (sys : System) : Prop :=
  let s := service sys in
  (* the handle remembered for a provider names an armed timer of it *)
  (∀ p k, timeoutRetryTimers s !! p = Some k ->
          ∃ ms, armed s !! k = Some (p, ms))
  (* a retry is for a known provider, with a timeout of 12 s at least *)
  ∧ (∀ k p ms, armed s !! k = Some (p, ms) -> 12000 <= ms ∧ known defs p)
  ∧ (∀ p, p ∈ timeoutRetryPending s -> known defs p)
  (* a suspended check probes the definition found for its id; the check
     of the retry timer has the retry's reason and options *)
  ∧ (∀ n c, inflight sys !! n = Some c ->
       (n < checkSeq sys)%nat
       ∧ find (fun d => bool_decide (id d = chk_providerId c)) defs
         = Some (chk_def c)
       ∧ id (chk_def c) = chk_providerId c
       ∧ (chk_finally c = true ->
          chk_reason c = timeout_retry
          ∧ chk_opts c ≫= opt_allowRetry = Some false
          ∧ 12000 <= chk_timeoutMs c)).

(** Modelled from the spec: [providerStatusCache.load()], of the status
    store whose code is not among the sources, reads the persisted store,
    a key-value store that survives restarts; [store] is what it holds,
    whatever was written by earlier runs, with other definitions maybe. *)
Definition providerStatusCache_load (store : gmap string ProviderStatus)
    (s : Service) : Service :=
  {| timeoutRetryPending := timeoutRetryPending s;
     timeoutRetryTimers := timeoutRetryTimers s;
     armed := armed s;
     timerSeq := timerSeq s;
     providerStatusCache := store;
     sent := sent s |}.

(** The service once [initProviderStatusCache] has loaded the store, and
    the turns of the loop from there. *)
Definition loaded (store : gmap string ProviderStatus) : System :=
  {| service := providerStatusCache_load store new_service;
     inflight := ∅; checkSeq := 0%nat |}.

Definition exec_loaded (defs : list CliDefinition)
    (store : gmap string ProviderStatus) (evs : list Event) : System :=
  fold_left (step defs) evs (loaded store).


(** *** Checks of one provider that do not overlap *)

(** A check of provider [p] is suspended in its probe. *)
Definition busy (p : string) (sys : System) : Prop :=
  ∃ n c, inflight sys !! n = Some c ∧ chk_providerId c = p.

(** A caller keeps to the order: it never passes the reason timeout-retry
    itself, and asks for a check of a provider only when none is in
    flight.  The turns the caller does not decide are always allowed. *)
Definition allowed (sys : System) (ev : Event) : Prop :=
  match ev with
  | Call p reason _ => reason <> timeout_retry ∧ ¬ busy p sys
  | Settle _ _ _ _ => True
  | Fire _ => True
  end.

Fixpoint orderly_from (defs : list CliDefinition) (sys : System)
    (evs : list Event) : Prop :=
  match evs with
  | [] => True
  | ev :: rest => allowed sys ev ∧ orderly_from defs (step defs sys ev) rest
  end.

Definition orderly (defs : list CliDefinition) (evs : list Event) : Prop :=
  orderly_from defs boot evs.

(** What holds of the retry bookkeeping as long as the order is kept. *)
Definition one_retry_invariant (sys : System) : Prop :=
  let s := service sys in
  handles_fresh s
  ∧ (∀ n1 n2 c1 c2,
       inflight sys !! n1 = Some c1 -> inflight sys !! n2 = Some c2 ->
       chk_providerId c1 = chk_providerId c2 -> n1 = n2)
  ∧ (∀ k p ms, armed s !! k = Some (p, ms) ->
       timeoutRetryTimers s !! p = Some k
       ∧ p ∈ timeoutRetryPending s ∧ ¬ busy p sys)
  ∧ (∀ n c, inflight sys !! n = Some c ->
       (n < checkSeq sys)%nat
       ∧ (chk_finally c = true ->
          chk_providerId c ∈ timeoutRetryPending s
          ∧ chk_opts c ≫= opt_allowRetry = Some false)
       ∧ (chk_finally c = false ->
          chk_providerId c ∉ timeoutRetryPending s)).

(** A manual check that times out, is asked for again once it has
    completed, and times out again. *)
Definition trace_orderly : list Event :=
  [ Call "x" manual None; Settle 0 env_slow 3000 [];
    Call "x" manual None; Settle 1 env_slow 7000 [] ].

(** *** truncate *)

(** [truncate(input, max = 400)], which cuts the fields of the warnings.
    The suffix the source appends holds a code unit above 255, outside the
    strings used here, so it is the parameter [ellipsis]; [max] is a count
    of code units. *)
Definition truncate (ellipsis : string) (input : string) (max : nat) : string :=
  if Js.truthy input && Nat.ltb max (String.length input)
  then String.substring 0 max input +:+ ellipsis
  else input.

(** * Proofs *)

(** ** Truthiness *)

Lemma truthy_iff (s : string) : Js.truthy s = true <-> s <> "".
Proof. destruct s; simpl; split; intros; congruence. Qed.

Lemma truthy_opt_iff (o : option string) :
  Js.truthy_opt o = true <-> ∃ p, o = Some p ∧ p <> "".
Proof.
  destruct o as [p|]; simpl.
  - rewrite truthy_iff. split.
    + intros H. exists p. split; [reflexivity | exact H].
    + intros (q & Hq & Hne). congruence.
  - split; [discriminate | intros (q & Hq & _); discriminate].
Qed.

Lemma truthy_opt_wf (o : option string) :
  o <> Some "" -> Js.truthy_opt o = bool_decide (o <> None).
Proof.
  intros Hwf. destruct o as [[|c p]|]; simpl;
    first [reflexivity | congruence].
Qed.

Lemma is_true_iff (o : option bool) : is_true o = true <-> o = Some true.
Proof. destruct o as [[|]|]; simpl; split; intros; congruence. Qed.

(** ** The status classifier *)

Lemma resolveStatus_success (def : CliDefinition) (r : CommandResult) :
  statusResolver def = None -> success r = true ->
  resolveStatus def r = connected.
Proof. intros Hd Hs. unfold resolveStatus. rewrite Hd, Hs. reflexivity. Qed.

Lemma resolveStatus_path (def : CliDefinition) (r : CommandResult) :
  statusResolver def = None -> Js.truthy_opt (resolvedPath r) = true ->
  resolveStatus def r = connected.
Proof.
  intros Hd Hp. unfold resolveStatus. rewrite Hd, Hp.
  destruct (success r); reflexivity.
Qed.

Lemma resolveStatus_timeout_output (def : CliDefinition) (r : CommandResult) :
  statusResolver def = None -> timedOut r = Some true -> stdout r <> "" ->
  resolveStatus def r = connected.
Proof.
  intros Hd Ht Ho. unfold resolveStatus. rewrite Hd.
  apply is_true_iff in Ht. apply truthy_iff in Ho. rewrite Ht, Ho.
  destruct (success r), (Js.truthy_opt (resolvedPath r)); reflexivity.
Qed.

(** An attached error rules out [missing], whatever else the result holds. *)
Lemma resolveStatus_error_attached (def : CliDefinition) (r : CommandResult) :
  statusResolver def = None -> is_Some (cr_error r) ->
  resolveStatus def r = connected ∨ resolveStatus def r = error.
Proof.
  intros Hd [e He]. unfold resolveStatus. rewrite Hd, He.
  repeat match goal with
         | |- context [if ?b then _ else _] => destruct b
         end; auto.
Qed.

Lemma resolveStatus_never_needs_key (def : CliDefinition) (r : CommandResult) :
  statusResolver def = None -> resolveStatus def r <> needs_key.
Proof.
  intros Hd. unfold resolveStatus. rewrite Hd.
  repeat match goal with
         | |- context [if ?b then _ else _] => destruct b
         end; discriminate.
Qed.

Lemma resolveStatus_refines_policy (def : CliDefinition) (r : CommandResult) :
  statusResolver def = None -> path_wf r ->
  resolveStatus def r = status_policy r.
Proof.
  intros Hd Hwf. unfold resolveStatus, status_policy. rewrite Hd.
  rewrite (truthy_opt_wf _ Hwf).
  destruct (success r); [reflexivity|].
  destruct (bool_decide (resolvedPath r <> None)); [reflexivity|].
  destruct (timedOut r) as [[|]|] eqn:Ht, (stdout r) as [|c o] eqn:Ho,
           (stderr r) as [|c' o'] eqn:He, (status r) as [z|] eqn:Hs,
           (cr_error r) as [e|] eqn:Herr; simpl;
    repeat (case_bool_decide; simpl); try reflexivity;
    try (exfalso; naive_solver).
Qed.

(** C1.  For a provider definition without a status resolver and a Command
    Result whose resolved path is a path or null, the classifier returns
    what the ordered policy of the specification returns: connected on
    success, else connected on a resolved path, else connected on a timeout
    with stdout, else connected on an exit code without timeout and with
    output on either stream, else error if an error is attached and missing
    if not.  In particular success always gives connected, and a timeout
    with non-empty stdout gives connected, hence never error. *)
Theorem C1_resolveStatus_ordered_policy (def : CliDefinition) (r : CommandResult) :
  statusResolver def = None -> path_wf r ->
  resolveStatus def r = status_policy r
  ∧ (success r = true -> resolveStatus def r = connected)
  ∧ (timedOut r = Some true -> stdout r <> "" ->
     resolveStatus def r = connected ∧ resolveStatus def r <> error).
Proof.
  intros Hd Hwf. split; [|split].
  - apply resolveStatus_refines_policy; assumption.
  - intros Hs. apply resolveStatus_success; assumption.
  - intros Ht Ho.
    rewrite (resolveStatus_timeout_output def r Hd Ht Ho).
    split; [reflexivity | discriminate].
Qed.

Lemma C1_witness :
  statusResolver def_x = None ∧ path_wf result_blank
  ∧ resolveStatus def_x result_blank = missing.
Proof.
  split; [reflexivity|]. split; [discriminate|].
  destruct (C1_resolveStatus_ordered_policy def_x result_blank eq_refl
              ltac:(discriminate)) as [H _].
  rewrite H. reflexivity.
Defined.

(** ** Probes *)

Lemma head_filter_holds {A} (P : A -> Prop) `{!∀ x, Decision (P x)}
    (l : list A) (x : A) :
  head (filter P l) = Some x -> P x.
Proof.
  induction l as [|a l IH]; simpl; [discriminate|].
  rewrite filter_cons. destruct (decide (P a)) as [Ha|Ha]; simpl.
  - intros [= ->]. exact Ha.
  - exact IH.
Qed.

(** The locate utility never yields the empty string as a path. *)
Lemma resolveCommandPath_wf (env : Env) (cmd : string) (log : list SysCall) :
  fst (resolveCommandPath env cmd log) <> Some "".
Proof.
  unfold resolveCommandPath, bind, ret, sys_execFileSync. simpl.
  destruct (execFileSync env log _ [cmd]) as [result|]; [|discriminate].
  intros H. apply head_filter_holds in H. simpl in H. discriminate.
Qed.

Lemma runCommand_unfold (env : Env) (cmd : string) (argv : list string)
    (t : Z) (log : list SysCall) :
  runCommand env cmd argv t log =
  (settle cmd (fst (resolveCommandPath env cmd log)) t
          (probe_outcome env cmd argv t log),
   snd (spawn_child env (fst (resolveCommandPath env cmd log)) cmd argv t
                    (snd (resolveCommandPath env cmd log)))).
Proof.
  unfold runCommand, probe_outcome, bind, ret.
  destruct (resolveCommandPath env cmd log) as [resolved log1]. simpl.
  destruct (spawn_child env resolved cmd argv t log1) as [o log2].
  reflexivity.
Qed.

Lemma settle_resolvedPath (cmd : string) (rp : option string) (t : Z)
    (o : ProcOutcome) :
  resolvedPath (settle cmd rp t o) = rp.
Proof. destruct o; reflexivity. Qed.

Lemma runCommand_resolvedPath (env : Env) (cmd : string) (argv : list string)
    (t : Z) (log : list SysCall) :
  resolvedPath (fst (runCommand env cmd argv t log))
  = fst (resolveCommandPath env cmd log).
Proof. rewrite runCommand_unfold. simpl. apply settle_resolvedPath. Qed.

Lemma runCommand_wf (env : Env) (cmd : string) (argv : list string)
    (t : Z) (log : list SysCall) :
  path_wf (fst (runCommand env cmd argv t log)).
Proof.
  unfold path_wf. rewrite runCommand_resolvedPath.
  apply resolveCommandPath_wf.
Qed.

Lemma runCommandViaShell_unfold (env : Env) (cmd : option string)
    (argv : list string) (t : Z) (log : list SysCall) :
  let inner := runCommand env (login_shell env) (shell_argv env cmd argv) t log in
  runCommandViaShell env cmd argv t log =
  (if bool_decide (status (fst inner) = Some 127) then
     {| command := cmd;
        success := false;
        cr_error := Some (new_Error
                      (Js.show cmd +:+ ": command not found (shell fallback)"));
        stdout := stdout (fst inner);
        stderr := stderr (fst inner);
        status := None;
        version := version (fst inner);
        resolvedPath := None;
        timedOut := timedOut (fst inner);
        timeoutMs := timeoutMs (fst inner) |}
   else
     {| command := cmd;
        success := success (fst inner);
        cr_error := cr_error (fst inner);
        stdout := stdout (fst inner);
        stderr := stderr (fst inner);
        status := status (fst inner);
        version := version (fst inner);
        resolvedPath := resolvedPath (fst inner);
        timedOut := timedOut (fst inner);
        timeoutMs := timeoutMs (fst inner) |},
   snd inner).
Proof.
  intros inner. unfold runCommandViaShell, bind, ret. fold inner.
  destruct inner as [r log']. simpl.
  destruct (bool_decide (status r = Some 127)); reflexivity.
Qed.

Lemma runCommandViaShell_wf (env : Env) (cmd : option string)
    (argv : list string) (t : Z) (log : list SysCall) :
  path_wf (fst (runCommandViaShell env cmd argv t log)).
Proof.
  rewrite runCommandViaShell_unfold. simpl.
  destruct (bool_decide _); simpl; unfold path_wf; simpl.
  - discriminate.
  - apply runCommand_wf.
Qed.

Lemma tryCommands_loop_wf (env : Env) (cmds argv : list string) (t : Z)
    (fallback : Probe CommandResult) :
  (∀ log, path_wf (fst (fallback log))) ->
  ∀ log, path_wf (fst (tryCommands_loop env cmds argv t fallback log)).
Proof.
  intros Hfb. induction cmds as [|cmd rest IH]; intros log; simpl.
  - apply Hfb.
  - unfold bind.
    destruct (runCommand env cmd argv t log) as [r log1] eqn:Hr.
    assert (Hwf : path_wf r).
    { pose proof (runCommand_wf env cmd argv t log) as H.
      rewrite Hr in H. exact H. }
    destruct (success r); [exact Hwf|].
    destruct (error_other_than_ENOENT r); [exact Hwf|].
    apply IH.
Qed.

(** Every Command Result the cascade hands to the classifier carries a
    resolved path that is a path or null. *)
Lemma tryCommands_wf (env : Env) (def : CliDefinition) (t : Z)
    (log : list SysCall) :
  path_wf (fst (tryCommands env def t log)).
Proof.
  unfold tryCommands. apply tryCommands_loop_wf.
  intros log'. apply runCommandViaShell_wf.
Qed.

(** ** The probe cascade *)

Lemma passed_over_tests (r : CommandResult) :
  passed_over r ->
  success r = false ∧ error_other_than_ENOENT r = false.
Proof.
  intros [Hs He]. split; [exact Hs|].
  unfold error_other_than_ENOENT. destruct (cr_error r) as [e|]; [|reflexivity].
  rewrite (He e eq_refl). reflexivity.
Qed.

Lemma failed_not_found_passed_over (r : CommandResult) :
  failed_not_found r -> passed_over r.
Proof.
  intros [Hs (e & He & Hc)]. split; [exact Hs|].
  intros e' He'. congruence.
Qed.

Lemma failed_otherwise_test (r : CommandResult) :
  failed_otherwise r -> error_other_than_ENOENT r = true.
Proof.
  intros [_ (e & He & Hc)]. unfold error_other_than_ENOENT. rewrite He.
  rewrite bool_decide_eq_false_2 by exact Hc. reflexivity.
Qed.

Section Cascade.

Variable env : Env.
Variables (argv : list string) (t : Z) (fallback : Probe CommandResult).

(** Candidates that are passed over leave the loop where it was. *)
Lemma tryCommands_loop_app (pre rest : list string) :
  ∀ log rs log1,
    probe_each env pre argv t log = (rs, log1) ->
    Forall passed_over rs ->
    tryCommands_loop env (pre ++ rest) argv t fallback log
    = tryCommands_loop env rest argv t fallback log1.
Proof.
  induction pre as [|cmd pre IH]; intros log rs log1 Hp Hall; simpl in *.
  - unfold ret in Hp. injection Hp as <- <-. reflexivity.
  - unfold bind, ret in *.
    destruct (runCommand env cmd argv t log) as [r log'] eqn:Hr.
    destruct (probe_each env pre argv t log') as [rs' log''] eqn:Hrest.
    injection Hp as <- <-.
    inversion Hall as [|? ? Hhd Htl]; subst.
    destruct (passed_over_tests r Hhd) as [-> ->].
    apply (IH log' rs' log''); [exact Hrest | exact Htl].
Qed.

Lemma tryCommands_loop_returns (cmd : string) (post : list string)
    (log : list SysCall) :
  let r := fst (runCommand env cmd argv t log) in
  success r = true ∨ error_other_than_ENOENT r = true ->
  tryCommands_loop env (cmd :: post) argv t fallback log
  = runCommand env cmd argv t log.
Proof.
  simpl. unfold bind, ret.
  destruct (runCommand env cmd argv t log) as [r log'] eqn:Hr. simpl.
  intros [-> | H]; [reflexivity|].
  rewrite H. destruct (success r); reflexivity.
Qed.

Lemma tryCommands_loop_falls_through (cmds : list string) :
  ∀ log rs log1,
    probe_each env cmds argv t log = (rs, log1) ->
    Forall passed_over rs ->
    tryCommands_loop env cmds argv t fallback log = fallback log1.
Proof.
  intros log rs log1 Hp Hall.
  rewrite <- (app_nil_r cmds) at 1.
  rewrite (tryCommands_loop_app cmds [] log rs log1 Hp Hall). reflexivity.
Qed.

End Cascade.

(** C6.  For a provider with a non-empty command list the cascade probes the
    candidates in list order.  A candidate that succeeds, or that fails with
    an attached error other than ENOENT, ends the cascade at once when the
    candidates before it were passed over: its result is returned and the
    calls made stop with its probe, so no later candidate is tried.  When
    every candidate fails with ENOENT the result is that of the shell
    fallback, run on the last candidate of the list. *)
Theorem C6_probe_cascade (env : Env) (def : CliDefinition) (t : Z)
    (log : list SysCall) :
  commands def <> [] ->
  (∀ pre cmd post rs log1,
      commands def = (pre ++ cmd :: post)%list ->
      probe_each env pre (args def) t log = (rs, log1) ->
      Forall passed_over rs ->
      let r := fst (runCommand env cmd (args def) t log1) in
      success r = true ∨ failed_otherwise r ->
      tryCommands env def t log = runCommand env cmd (args def) t log1)
  ∧ (∀ rs log1,
      probe_each env (commands def) (args def) t log = (rs, log1) ->
      Forall failed_not_found rs ->
      ∃ lastCommand,
        last (commands def) = Some lastCommand
        ∧ tryCommands env def t log
          = runCommandViaShell env (Some lastCommand) (args def) t log1).
Proof.
  intros Hne. split.
  - intros pre cmd post rs log1 Hsplit Hp Hall r Hstop.
    unfold tryCommands.
    generalize (runCommandViaShell env (last (commands def)) (args def) t).
    intros fb. rewrite Hsplit.
    rewrite (tryCommands_loop_app env (args def) t fb pre (cmd :: post)
               log rs log1 Hp Hall).
    apply tryCommands_loop_returns.
    destruct Hstop as [Hs | Hf]; [left; exact Hs|].
    right. apply failed_otherwise_test. exact Hf.
  - intros rs log1 Hp Hall.
    destruct (last (commands def)) as [lastCommand|] eqn:Hlast.
    + exists lastCommand. split; [reflexivity|].
      unfold tryCommands. rewrite Hlast.
      apply (tryCommands_loop_falls_through env (args def) t _ _ log rs log1 Hp).
      eapply Forall_impl; [exact Hall|].
      intros r Hr. apply failed_not_found_passed_over. exact Hr.
    + apply last_None in Hlast. contradiction.
Qed.

Lemma C6_witness :
  commands def_abc <> []
  ∧ tryCommands env_denied def_abc 3000 []
    = runCommand env_denied "b" ["--version"] 3000
        [ExecFileSync "which" ["a"]; SpawnChild "a" ["--version"]]
  ∧ calls (tryCommands env_denied def_abc 3000)
    = [ExecFileSync "which" ["a"]; SpawnChild "a" ["--version"];
       ExecFileSync "which" ["b"]; SpawnChild "b" ["--version"]].
Proof.
  split; [discriminate|]. split; [|reflexivity].
  destruct (C6_probe_cascade env_denied def_abc 3000 [] ltac:(discriminate))
    as [H _].
  apply (H ["a"] "b" ["c"]
           [fst (runCommand env_denied "a" ["--version"] 3000 [])]
           [ExecFileSync "which" ["a"]; SpawnChild "a" ["--version"]]).
  - reflexivity.
  - reflexivity.
  - constructor; [|constructor].
    split; [reflexivity|]. intros e [= <-]. reflexivity.
  - right. split; [reflexivity|].
    eexists. split; [reflexivity | discriminate].
Defined.

(** ** The shell fallback *)

Lemma shell_fallback_127 (env : Env) (cmd : option string)
    (argv : list string) (t : Z) (log : list SysCall) :
  let inner := fst (runCommand env (login_shell env) (shell_argv env cmd argv) t log) in
  let r := fst (runCommandViaShell env cmd argv t log) in
  status inner = Some 127 ->
  success r = false ∧ resolvedPath r = None ∧ status r = None
  ∧ cr_error r = Some (new_Error
                         (Js.show cmd +:+ ": command not found (shell fallback)"))
  ∧ stdout r = stdout inner ∧ stderr r = stderr inner
  ∧ timedOut r = timedOut inner.
Proof.
  intros inner r H127. subst r. rewrite runCommandViaShell_unfold. simpl.
  fold inner. rewrite bool_decide_eq_true_2 by exact H127. simpl.
  repeat split; reflexivity.
Qed.

Lemma shell_fallback_other (env : Env) (cmd : option string)
    (argv : list string) (t : Z) (log : list SysCall) :
  let inner := fst (runCommand env (login_shell env) (shell_argv env cmd argv) t log) in
  let r := fst (runCommandViaShell env cmd argv t log) in
  status inner <> Some 127 ->
  resolvedPath r = fst (resolveCommandPath env (login_shell env) log)
  ∧ success r = success inner ∧ status r = status inner
  ∧ cr_error r = cr_error inner.
Proof.
  intros inner r Hne. subst r. rewrite runCommandViaShell_unfold. simpl.
  fold inner. rewrite bool_decide_eq_false_2 by exact Hne. simpl.
  repeat split; try reflexivity.
  apply runCommand_resolvedPath.
Qed.

Lemma shell_fallback_never_missing (env : Env) (cmd : option string)
    (argv : list string) (t : Z) (log : list SysCall) (def : CliDefinition) :
  statusResolver def = None ->
  is_Some (fst (resolveCommandPath env (login_shell env) log)) ->
  resolveStatus def (fst (runCommandViaShell env cmd argv t log)) <> missing.
Proof.
  intros Hd [p Hp].
  set (inner := fst (runCommand env (login_shell env) (shell_argv env cmd argv) t log)).
  set (r := fst (runCommandViaShell env cmd argv t log)).
  destruct (decide (status inner = Some 127)) as [H127|Hne].
  - destruct (shell_fallback_127 env cmd argv t log H127)
      as (_ & _ & _ & Herr & _).
    fold r in Herr.
    destruct (resolveStatus_error_attached def r Hd) as [-> | ->];
      [rewrite Herr; eexists; reflexivity | discriminate | discriminate].
  - destruct (shell_fallback_other env cmd argv t log Hne) as [Hrp _].
    fold r in Hrp.
    rewrite (resolveStatus_path def r Hd); [discriminate|].
    rewrite Hrp, Hp. apply truthy_opt_iff. exists p. split; [reflexivity|].
    intros ->. apply (resolveCommandPath_wf env (login_shell env) log).
    exact Hp.
Qed.

(** C9.  When the shell invocation of the fallback ends with anything but
    exit code 127, the resolved path of the returned Command Result is the
    path the locate utility gives for the user's shell itself.  Hence, when
    the shell can be located, a definition without a status resolver
    classifies every such outcome as connected, through the resolved-path
    rule, and no outcome of the fallback, 127 included, as missing. *)
Theorem C9_shell_fallback_reports_shell_path (env : Env)
    (cmd : option string) (argv : list string) (t : Z) (log : list SysCall) :
  let inner := fst (runCommand env (login_shell env) (shell_argv env cmd argv) t log) in
  let r := fst (runCommandViaShell env cmd argv t log) in
  let shell_path := fst (resolveCommandPath env (login_shell env) log) in
  (status inner <> Some 127 -> resolvedPath r = shell_path)
  ∧ (∀ def, statusResolver def = None -> is_Some shell_path ->
       (status inner <> Some 127 ->
        Js.truthy_opt (resolvedPath r) = true ∧ resolveStatus def r = connected)
       ∧ resolveStatus def r <> missing).
Proof.
  intros inner r shell_path. split.
  - intros Hne. apply (shell_fallback_other env cmd argv t log Hne).
  - intros def Hd [p Hp].
    assert (Hpath : status inner <> Some 127 ->
                    Js.truthy_opt (resolvedPath r) = true).
    { intros Hne.
      destruct (shell_fallback_other env cmd argv t log Hne) as [Hrp _].
      fold r in Hrp. rewrite Hrp. fold shell_path. rewrite Hp.
      apply truthy_opt_iff. exists p. split; [reflexivity|].
      intros ->. apply (resolveCommandPath_wf env (login_shell env) log).
      exact Hp. }
    split.
    + intros Hne. split; [auto|]. apply resolveStatus_path; auto.
    + apply shell_fallback_never_missing; [exact Hd|].
      exists p. exact Hp.
Qed.

Lemma C9_witness :
  let r := fst (runCommandViaShell env_windows None ["--version"] 3000 []) in
  status r = Some 1
  ∧ resolvedPath r = Some "C:\Windows\System32\cmd.exe"
  ∧ resolveStatus def_nocmd r = connected.
Proof.
  intros r. subst r. split; [reflexivity|].
  destruct (C9_shell_fallback_reports_shell_path env_windows None
              ["--version"] 3000 []) as [Hpath Hcls].
  split.
  - rewrite Hpath; [reflexivity | discriminate].
  - destruct (Hcls def_nocmd eq_refl) as [H _].
    + eexists. reflexivity.
    + apply H. discriminate.
Defined.

(** ** Message resolution *)

Lemma first_nonempty_cons (s : string) (l : list string) :
  first_nonempty (s :: l) = if Js.truthy s then Some s else first_nonempty l.
Proof.
  unfold first_nonempty. rewrite filter_cons.
  destruct (decide (s <> "")) as [H|H]; destruct s; simpl;
    try reflexivity; try congruence.
  exfalso. apply H. discriminate.
Qed.

Lemma resolveMessage_by_design (def : CliDefinition) (r : CommandResult)
    (st : CliStatusCode) :
  resolveMessage def r st = message_policy_by_design def r st.
Proof.
  unfold resolveMessage, message_policy_by_design, codex_message,
    not_found_message.
  destruct (bool_decide (id def = "codex")); [reflexivity|].
  destruct (messageResolver def); [reflexivity|].
  destruct (bool_decide (st = missing)); [reflexivity|].
  destruct (bool_decide (st = error)); [|reflexivity].
  rewrite !first_nonempty_cons.
  destruct (Js.truthy (Js.trim (stderr r))); [reflexivity|].
  destruct (Js.truthy (Js.trim (stdout r))); [reflexivity|].
  destruct (cr_error r); reflexivity.
Qed.

(** C8, amended.  Message resolution is: for the provider with id codex,
    null when the status is connected and the fixed Codex hint otherwise;
    for every other provider the override message resolver when supplied,
    else the generic not-found message when the status is missing, else for
    status error the first of stderr and stdout that is non-empty once
    trimmed (returned trimmed), else the message of the attached error when
    there is one, else null.  Where the provider is not codex, the two
    streams carry no surrounding white space and an attached error has a
    non-empty message, this is the order the specification states. *)
Theorem C8_message_resolution (def : CliDefinition) (r : CommandResult)
    (st : CliStatusCode) :
  resolveMessage def r st = message_policy_by_design def r st
  ∧ (id def <> "codex" ->
     Js.trim (stderr r) = stderr r -> Js.trim (stdout r) = stdout r ->
     (∀ e, cr_error r = Some e -> err_message e <> "") ->
     resolveMessage def r st = message_policy def r st).
Proof.
  split; [apply resolveMessage_by_design|].
  intros Hid Herr Hout Hmsg. rewrite resolveMessage_by_design.
  unfold message_policy_by_design, message_policy.
  rewrite bool_decide_eq_false_2 by exact Hid.
  destruct (messageResolver def); [reflexivity|].
  destruct (bool_decide (st = missing)); [reflexivity|].
  destruct (bool_decide (st = error)); [|reflexivity].
  rewrite Herr, Hout. simpl. rewrite !first_nonempty_cons.
  destruct (Js.truthy (stderr r)); [reflexivity|].
  destruct (Js.truthy (stdout r)); [reflexivity|].
  destruct (cr_error r) as [e|] eqn:He; simpl; [|reflexivity].
  rewrite first_nonempty_cons.
  specialize (Hmsg e eq_refl). apply truthy_iff in Hmsg. rewrite Hmsg.
  reflexivity.
Qed.

(** C8 as stated fails for the provider codex: with no resolver and status
    missing the code answers with the Codex hint, not with the generic
    message. *)
Lemma C8_counterexample_codex :
  messageResolver def_codex = None
  ∧ message_policy def_codex result_blank missing
    = Some "Codex was not found in PATH."
  ∧ resolveMessage def_codex result_blank missing = Some codex_message
  ∧ resolveMessage def_codex result_blank missing
    <> message_policy def_codex result_blank missing.
Proof. repeat split; try reflexivity. discriminate. Qed.

(** It also fails on a stream that holds white space only: the code skips
    it, the stated order returns it. *)
Lemma message_blank_stderr_skipped :
  let r := {| command := Some "x"; success := false;
              cr_error := None; stdout := "boom"; stderr := " ";
              status := None; version := None; resolvedPath := None;
              timedOut := Some false; timeoutMs := Some 3000 |} in
  resolveMessage def_x r error = Some "boom"
  ∧ message_policy def_x r error = Some " ".
Proof. split; reflexivity. Qed.

(** ** A provider without commands *)

Lemma tryCommands_no_commands (env : Env) (def : CliDefinition) (t : Z) :
  commands def = [] ->
  tryCommands env def t = runCommandViaShell env None (args def) t.
Proof. intros H. unfold tryCommands. rewrite H. reflexivity. Qed.

(** Whatever the environment: when the shell can be located, a provider
    without commands is never classified as missing. *)
Lemma no_commands_never_missing (env : Env) (def : CliDefinition) (t : Z)
    (log : list SysCall) :
  commands def = [] -> statusResolver def = None ->
  is_Some (fst (resolveCommandPath env (login_shell env) log)) ->
  command (fst (tryCommands env def t log)) = None
  ∧ resolveStatus def (fst (tryCommands env def t log)) <> missing.
Proof.
  intros Hc Hd Hs. rewrite (tryCommands_no_commands env def t Hc). split.
  - rewrite runCommandViaShell_unfold. simpl.
    destruct (bool_decide _); reflexivity.
  - apply shell_fallback_never_missing; assumption.
Qed.

(** C2, the code at the failing input.  A provider with an empty command
    list is probed through the shell with [undefined] as its command: the
    shell is asked to run the bare argument list.  Where the shell answers
    127 the check ends in error, with the word undefined in the attached
    message; on a host where the command interpreter answers 1 it ends in
    connected, with the interpreter's own path as resolved path.  Neither is
    missing with no resolved path. *)
Theorem C2_empty_command_list_probes_shell :
  let r := run (tryCommands env_absent def_nocmd 3000) in
  let w := run (tryCommands env_windows def_nocmd 3000) in
  commands def_nocmd = []
  ∧ calls (tryCommands env_absent def_nocmd 3000)
    = [ExecFileSync "which" ["/bin/sh"];
       SpawnChild "/bin/sh" ["-lc"; " --version"]]
  ∧ command r = None
  ∧ cr_error r = Some (new_Error "undefined: command not found (shell fallback)")
  ∧ resolveStatus def_nocmd r = error
  ∧ resolveStatus def_nocmd w = connected
  ∧ resolvedPath w = Some "C:\Windows\System32\cmd.exe".
Proof. repeat split; reflexivity. Qed.

(** ** A probe that is not on the PATH *)

Lemma not_found_scenario_result (env : Env) (def : CliDefinition) (t : Z)
    (log : list SysCall) :
  not_found_scenario env def t log ->
  let r := fst (tryCommands env def t log) in
  success r = false ∧ resolvedPath r = None ∧ status r = None
  ∧ cr_error r = Some (shell_fallback_error (last (commands def))).
Proof.
  intros (rs & log1 & Hp & Hall & H127) r. subst r.
  unfold tryCommands.
  rewrite (tryCommands_loop_falls_through env (args def) t _ _ log rs log1 Hp).
  - destruct (shell_fallback_127 env (last (commands def)) (args def) t log1 H127)
      as (Hs & Hrp & Hst & Herr & _).
    repeat split; assumption.
  - eapply Forall_impl; [exact Hall|].
    intros r [_ Hr]. apply failed_not_found_passed_over. exact Hr.
Qed.

(** C3, amended.  For a provider without overrides (and other than codex)
    whose probe is not on the PATH, the result of the cascade has no
    resolved path and carries the error of the shell fallback.  Its
    classification is therefore never missing: it is connected exactly when
    the shell probe had timed out with non-empty stdout, and error
    otherwise.  For the classification error the message is the first of
    stderr and stdout that is non-empty once trimmed, else the text
    [<last command>: command not found (shell fallback)]. *)
Theorem C3_not_found_classifies_error (env : Env) (def : CliDefinition)
    (t : Z) (log : list SysCall) :
  statusResolver def = None -> messageResolver def = None ->
  id def <> "codex" ->
  not_found_scenario env def t log ->
  let r := fst (tryCommands env def t log) in
  let st := resolveStatus def r in
  resolvedPath r = None
  ∧ cr_error r = Some (shell_fallback_error (last (commands def)))
  ∧ st <> missing
  ∧ (st = connected <-> timedOut r = Some true ∧ stdout r <> "")
  ∧ (st <> connected ->
     st = error
     ∧ resolveMessage def r st
       = Some (default (err_message (shell_fallback_error (last (commands def))))
                 (first_nonempty [Js.trim (stderr r); Js.trim (stdout r)]))).
Proof.
  intros Hd Hm Hid Hsc r st.
  destruct (not_found_scenario_result env def t log Hsc)
    as (Hs & Hrp & Hst & Herr).
  fold r in Hs, Hrp, Hst, Herr.
  assert (Hcls : st = if is_true (timedOut r) && Js.truthy (stdout r)
                      then connected else error).
  { subst st. unfold resolveStatus. rewrite Hd, Hs, Hrp, Hst, Herr. simpl.
    destruct (is_true (timedOut r) && Js.truthy (stdout r)); reflexivity. }
  split; [exact Hrp|]. split; [exact Herr|].
  destruct (is_true (timedOut r) && Js.truthy (stdout r)) eqn:Hto.
  - apply andb_true_iff in Hto as [Ht Ho].
    apply is_true_iff in Ht. apply truthy_iff in Ho.
    rewrite Hcls. split; [discriminate|]. split.
    + split; [intros _; split; assumption | reflexivity].
    + intros H. contradiction.
  - rewrite Hcls. split; [discriminate|]. split.
    + split; [discriminate|]. intros [Ht Ho].
      apply is_true_iff in Ht. apply truthy_iff in Ho.
      rewrite Ht, Ho in Hto. discriminate.
    + intros _. split; [reflexivity|].
      rewrite resolveMessage_by_design. unfold message_policy_by_design.
      rewrite bool_decide_eq_false_2 by exact Hid. rewrite Hm. simpl.
      rewrite Herr. simpl.
      destruct (first_nonempty _); reflexivity.
Qed.

Lemma C3_witness :
  not_found_scenario env_absent def_foo 3000 []
  ∧ resolveStatus def_foo (run (tryCommands env_absent def_foo 3000)) = error
  ∧ resolveMessage def_foo (run (tryCommands env_absent def_foo 3000)) error
    = Some "sh: 1: foo: not found".
Proof.
  assert (Hsc : not_found_scenario env_absent def_foo 3000 []).
  { eexists _, _. split; [reflexivity|]. split; [|reflexivity].
    constructor; [|constructor].
    split; [reflexivity|]. split; [reflexivity|].
    eexists. split; reflexivity. }
  split; [exact Hsc|].
  destruct (C3_not_found_classifies_error env_absent def_foo 3000 []
              eq_refl eq_refl ltac:(discriminate) Hsc)
    as (_ & _ & _ & _ & H).
  destruct H as [Hst Hmsg]; [discriminate|].
  split; [exact Hst | reflexivity].
Defined.

(** C3 as stated fails: in the scenario the classification is error and
    the message is what the shell wrote, not missing with the generic
    not-found message. *)
Lemma C3_counterexample :
  statusResolver def_foo = None ∧ messageResolver def_foo = None
  ∧ not_found_scenario env_absent def_foo 3000 []
  ∧ ¬ (resolveStatus def_foo (run (tryCommands env_absent def_foo 3000))
       = missing
       ∧ resolveMessage def_foo (run (tryCommands env_absent def_foo 3000))
           (resolveStatus def_foo (run (tryCommands env_absent def_foo 3000)))
         = Some (not_found_message def_foo)).
Proof.
  split; [reflexivity|]. split; [reflexivity|]. split.
  - eexists _, _. split; [reflexivity|]. split; [|reflexivity].
    constructor; [|constructor].
    split; [reflexivity|]. split; [reflexivity|].
    eexists. split; reflexivity.
  - intros [H _]. vm_compute in H. discriminate.
Qed.

(** ** Version extraction *)

Section VersionPattern.

Local Arguments String.append !_ _ / : simpl nomatch.

Lemma sapp_assoc (a b c : string) : (a +:+ b) +:+ c = a +:+ (b +:+ c).
Proof. induction a as [|x a IH]; simpl; [reflexivity | rewrite IH; reflexivity]. Qed.

Lemma slength_app (a b : string) :
  String.length (a +:+ b) = (String.length a + String.length b)%nat.
Proof. induction a as [|x a IH]; simpl; [reflexivity | rewrite IH; reflexivity]. Qed.

Lemma span_digits_sound (s : string) :
  s = fst (span_digits s) +:+ snd (span_digits s)
  ∧ all_digits (fst (span_digits s)) = true
  ∧ head_nondigit (snd (span_digits s)).
Proof.
  induction s as [|c s (H1 & H2 & H3)]; simpl.
  - auto.
  - destruct (Js.is_digit c) eqn:Hc.
    + destruct (span_digits s) as [d r]; simpl in *.
      rewrite Hc. repeat split; [congruence | exact H2 | exact H3].
    + simpl. repeat split. exact Hc.
Qed.

Lemma span_digits_exact (d r : string) :
  all_digits d = true -> head_nondigit r -> span_digits (d +:+ r) = (d, r).
Proof.
  induction d as [|c d IH]; simpl; intros Hd Hr.
  - destruct r as [|c r]; simpl in *; [reflexivity | rewrite Hr; reflexivity].
  - apply andb_true_iff in Hd as [Hc Hd]. rewrite Hc, IH; auto.
Qed.

Lemma span_digits_prefix (d r : string) :
  all_digits d = true ->
  ∃ k, fst (span_digits (d +:+ r)) = d +:+ k
       ∧ r = k +:+ snd (span_digits (d +:+ r)).
Proof.
  induction d as [|c d IH]; simpl; intros Hd.
  - exists (fst (span_digits r)). split; [reflexivity | apply span_digits_sound].
  - apply andb_true_iff in Hd as [Hc Hd]. rewrite Hc.
    destruct (IH Hd) as (k & H1 & H2).
    destruct (span_digits (d +:+ r)) as [d0 r0]; simpl in *.
    exists k. split; [congruence | exact H2].
Qed.

Lemma after_dot_Some (s r : string) : after_dot s = Some r -> s = String "." r.
Proof.
  destruct s as [|c s]; simpl; [discriminate|].
  destruct (Ascii.eqb c ".") eqn:Hc; [|discriminate].
  apply Ascii.eqb_eq in Hc. intros [= ->]. congruence.
Qed.

Lemma truthy_app_l (a b : string) : a <> "" -> Js.truthy (a +:+ b) = true.
Proof. destruct a; simpl; congruence. Qed.

Lemma match_here_sound (s v : string) :
  match_version_here s = Some v ->
  is_version_token v ∧ ∃ post, s = v +:+ post.
Proof.
  unfold match_version_here.
  destruct (span_digits_sound s) as (Hs & D1 & _).
  destruct (span_digits s) as [d1 r1]; simpl in *.
  destruct (Js.truthy d1) eqn:T1; simpl; [|discriminate].
  destruct (after_dot r1) as [r1'|] eqn:A1; [|discriminate].
  apply after_dot_Some in A1. subst r1.
  destruct (span_digits_sound r1') as (Hs1 & D2 & _).
  destruct (span_digits r1') as [d2 r2]; simpl in *.
  destruct (Js.truthy d2) eqn:T2; simpl; [|discriminate].
  apply truthy_iff in T1, T2.
  destruct (after_dot r2) as [r2'|] eqn:A2.
  - apply after_dot_Some in A2. subst r2.
    destruct (span_digits_sound r2') as (Hs2 & D3 & _).
    destruct (span_digits r2') as [d3 r3]; simpl in *.
    destruct (Js.truthy d3) eqn:T3; simpl; intros [= <-].
    + apply truthy_iff in T3. split.
      * exists d1, d2. repeat split; auto. right. exists d3. repeat split; auto.
      * exists r3. rewrite Hs, Hs1, Hs2.
        repeat (rewrite ?sapp_assoc; simpl). reflexivity.
    + split.
      * exists d1, d2. repeat split; auto.
      * exists (String "." r2'). rewrite Hs, Hs1.
        repeat (rewrite ?sapp_assoc; simpl). reflexivity.
  - intros [= <-]. split.
    + exists d1, d2. repeat split; auto.
    + exists r2. rewrite Hs, Hs1. repeat (rewrite ?sapp_assoc; simpl). reflexivity.
Qed.

Lemma match_here_complete (v post : string) :
  is_version_token v ->
  ∃ w, match_version_here (v +:+ post) = Some w
       ∧ (String.length v <= String.length w)%nat.
Proof.
  intros (d1 & d2 & [N1 D1] & [N2 D2] & Hv).
  assert (Hdot : ∀ x, head_nondigit (String "." x)) by (intros x; reflexivity).
  unfold match_version_here.
  destruct Hv as [-> | (d3 & [N3 D3] & ->)].
  - repeat (rewrite ?sapp_assoc; simpl).
    rewrite (span_digits_exact d1 _ D1 (Hdot _)).
    rewrite (proj2 (truthy_iff d1) N1). simpl.
    destruct (span_digits_prefix d2 post D2) as (k & Hk & _).
    destruct (span_digits (d2 +:+ post)) as [d2' r2]. simpl in Hk. subst d2'.
    rewrite (truthy_app_l d2 k N2). simpl.
    destruct (after_dot r2) as [r2'|].
    + destruct (span_digits r2') as [d3 r3].
      destruct (Js.truthy d3); simpl; eexists; (split; [reflexivity|]);
        rewrite !slength_app; simpl; rewrite ?slength_app; simpl; lia.
    + eexists. split; [reflexivity|].
      rewrite !slength_app; simpl; rewrite ?slength_app; lia.
  - repeat (rewrite ?sapp_assoc; simpl).
    rewrite (span_digits_exact d1 _ D1 (Hdot _)).
    rewrite (proj2 (truthy_iff d1) N1). simpl.
    rewrite (span_digits_exact d2 _ D2 (Hdot _)).
    rewrite (proj2 (truthy_iff d2) N2). simpl.
    destruct (span_digits_prefix d3 post D3) as (k & Hk & _).
    destruct (span_digits (d3 +:+ post)) as [d3' r3]. simpl in Hk. subst d3'.
    rewrite (truthy_app_l d3 k N3). simpl.
    eexists. split; [reflexivity|].
    rewrite !slength_app; simpl; rewrite ?slength_app; simpl;
      rewrite ?slength_app; lia.
Qed.

Lemma match_here_longest (s v : string) :
  match_version_here s = Some v ->
  ∀ v' post', is_version_token v' -> s = v' +:+ post' ->
    (String.length v' <= String.length v)%nat.
Proof.
  intros Hv v' post' Htok ->.
  destruct (match_here_complete v' post' Htok) as (w & Hw & Hlen).
  congruence.
Qed.

Lemma match_here_none (s : string) :
  match_version_here s = None ->
  ∀ v post, is_version_token v -> s <> v +:+ post.
Proof.
  intros Hn v post Htok ->.
  destruct (match_here_complete v post Htok) as (w & Hw & _).
  congruence.
Qed.

Lemma match_at_0 (v s : string) :
  match_at 0 v s <-> is_version_token v ∧ ∃ post, s = v +:+ post.
Proof.
  unfold match_at. split.
  - intros (Htok & before & after & -> & Hlen).
    destruct before; [|discriminate]. split; [exact Htok|]. exists after. reflexivity.
  - intros (Htok & post & ->). split; [exact Htok|].
    exists "", post. split; reflexivity.
Qed.

Lemma match_at_S (n : nat) (v : string) (c : ascii) (s : string) :
  match_at (S n) v (String c s) <-> match_at n v s.
Proof.
  unfold match_at. split.
  - intros (Htok & before & after & Heq & Hlen).
    destruct before as [|b before]; [discriminate|]. simpl in *.
    injection Heq as -> ->. injection Hlen as Hlen.
    split; [exact Htok|]. exists before, after. split; [reflexivity | exact Hlen].
  - intros (Htok & before & after & -> & Hlen).
    split; [exact Htok|]. exists (String c before), after.
    split; [reflexivity | simpl; congruence].
Qed.

Lemma match_at_empty (n : nat) (v : string) : ¬ match_at n v "".
Proof.
  intros (Htok & before & after & Heq & Hlen).
  destruct before; [|discriminate]. simpl in *.
  apply (match_here_none "" eq_refl v after Htok). exact Heq.
Qed.

Lemma regex_match_none (s : string) :
  regex_match_version s = None -> no_match s.
Proof.
  induction s as [|c s IH]; simpl; intros Hn n v Hm.
  - exact (match_at_empty n v Hm).
  - destruct (match_version_here (String c s)) as [w|] eqn:Hh; [discriminate|].
    destruct n as [|n].
    + apply (proj1 (match_at_0 _ _)) in Hm as (Htok & post & Heq).
      exact (match_here_none _ Hh v post Htok Heq).
    + apply (proj1 (match_at_S _ _ _ _)) in Hm. exact (IH Hn n v Hm).
Qed.

Lemma regex_match_first (s v : string) :
  regex_match_version s = Some v -> first_match s v.
Proof.
  revert v. induction s as [|c s IH]; intros v; simpl.
  - discriminate.
  - destruct (match_version_here (String c s)) as [w|] eqn:Hh.
    + intros [= ->]. exists 0%nat. split.
      * apply match_at_0. apply match_here_sound. exact Hh.
      * intros n' v' Hm. split; [lia|]. intros ->.
        apply (proj1 (match_at_0 _ _)) in Hm as (Htok & post & Heq).
        exact (match_here_longest _ _ Hh v' post Htok Heq).
    + intros Hr. destruct (IH v Hr) as (n & Hm & Hmin).
      exists (S n). split; [apply match_at_S; exact Hm|].
      intros n' v' Hm'. destruct n' as [|n'].
      * apply (proj1 (match_at_0 _ _)) in Hm' as (Htok & post & Heq).
        exfalso. exact (match_here_none _ Hh v' post Htok Heq).
      * apply (proj1 (match_at_S _ _ _ _)) in Hm'. destruct (Hmin n' v' Hm') as [Hle Hlen].
        split; [lia|]. intros [= ->]. apply Hlen. reflexivity.
Qed.

Lemma extractVersion_regex (s : string) :
  extractVersion s = regex_match_version s.
Proof. destruct s; reflexivity. Qed.

Lemma token_nonempty (v : string) : is_version_token v -> v <> "".
Proof.
  intros (d1 & d2 & [N1 _] & _ & [-> | (d3 & _ & ->)]);
    destruct d1; simpl; congruence.
Qed.

Lemma version_field_spec (out err : string) :
  version_spec out err (or_else (extractVersion out) (extractVersion err)).
Proof.
  rewrite !extractVersion_regex. unfold version_spec, or_else.
  destruct (regex_match_version out) as [w|] eqn:Ho.
  - pose proof (regex_match_first out w Ho) as Hf.
    assert (Hne : w <> "").
    { destruct Hf as (n & [Htok _] & _). apply token_nonempty. exact Htok. }
    simpl. rewrite (proj2 (truthy_iff w) Hne).
    left. exists w. split; [reflexivity | exact Hf].
  - simpl. pose proof (regex_match_none out Ho) as Hno.
    destruct (regex_match_version err) as [w|] eqn:He.
    + right; left. exists w. repeat split; auto. apply regex_match_first. exact He.
    + right; right. repeat split; auto. apply regex_match_none. exact He.
Qed.

End VersionPattern.

(** C7.  When the probe ends with the exit of the process, the success
    field of the Command Result is (not timed out) and (exit code is 0),
    and its version field is the first match of the version pattern in
    stdout, else the first match in stderr, else null.  In particular a
    probe that exits with 0 in time, having written v2.3.1 to stdout, gives
    success true and version 2.3.1, and a definition without a status
    resolver classifies it as connected. *)
Theorem C7_probe_exit (env : Env) (cmd : string) (argv : list string)
    (t : Z) (log : list SysCall) (code : option Z) (out err : string)
    (didTimeout : bool) :
  probe_outcome env cmd argv t log = CloseEvent code out err didTimeout ->
  let r := fst (runCommand env cmd argv t log) in
  success r = negb didTimeout && bool_decide (code = Some 0)
  ∧ version_spec out err (version r)
  ∧ status r = code ∧ stdout r = out ∧ stderr r = err
  ∧ timedOut r = Some didTimeout
  ∧ (didTimeout = false -> code = Some 0 -> out = "v2.3.1" ->
     success r = true ∧ version r = Some "2.3.1"
     ∧ ∀ def, statusResolver def = None -> resolveStatus def r = connected).
Proof.
  intros Ho r. subst r. rewrite runCommand_unfold. simpl. rewrite Ho. simpl.
  split; [reflexivity|]. split; [apply version_field_spec|].
  repeat (split; [reflexivity|]).
  intros -> -> ->. split; [reflexivity|]. split; [reflexivity|].
  intros def Hd. apply resolveStatus_success; [exact Hd | reflexivity].
Qed.

Lemma C7_witness :
  probe_outcome env_ready "x" ["--version"] 3000 []
  = CloseEvent (Some 0) "v2.3.1" "" false
  ∧ success (run (runCommand env_ready "x" ["--version"] 3000)) = true
  ∧ version (run (runCommand env_ready "x" ["--version"] 3000)) = Some "2.3.1"
  ∧ resolveStatus def_x (run (runCommand env_ready "x" ["--version"] 3000))
    = connected.
Proof.
  split; [reflexivity|].
  destruct (C7_probe_exit env_ready "x" ["--version"] 3000 []
              (Some 0) "v2.3.1" "" false eq_refl)
    as (_ & _ & _ & _ & _ & _ & H).
  destruct (H eq_refl eq_refl eq_refl) as (Hs & Hv & Hc).
  split; [exact Hs|]. split; [exact Hv|]. apply Hc. reflexivity.
Defined.

(** ** The retry scheduler *)

Lemma shouldRetryTimeout_iff (r : CommandResult) (opts : option CheckOpts) :
  path_wf r ->
  shouldRetryTimeout r opts = true <->
  timedOut r = Some true
  ∧ (resolvedPath r <> None ∨ stdout r <> "")
  ∧ opts ≫= opt_allowRetry <> Some false.
Proof.
  intros Hwf. unfold shouldRetryTimeout.
  rewrite (truthy_opt_wf _ Hwf).
  rewrite !andb_true_iff, orb_true_iff, negb_true_iff.
  rewrite is_true_iff, truthy_iff, bool_decide_eq_true, bool_decide_eq_false.
  tauto.
Qed.

Section Scheduler.

Variable defs : list CliDefinition.

Lemma clearTimeoutRetry_fresh (p : string) (s : Service) :
  handles_fresh s -> handles_fresh (clearTimeoutRetry p s).
Proof.
  intros H k v. unfold clearTimeoutRetry.
  destruct (timeoutRetryTimers s !! p) as [pendingTimer|]; simpl.
  - intros Hk. apply lookup_delete_Some in Hk as [_ Hk]. exact (H k v Hk).
  - apply H.
Qed.

Lemma checkProvider_begin_fresh (p : string) (reason : Reason)
    (opts : option CheckOpts) (s : Service) :
  handles_fresh s -> handles_fresh (snd (checkProvider_begin defs p reason opts s)).
Proof.
  intros H. unfold checkProvider_begin.
  destruct (find _ defs); simpl; [|exact H].
  destruct (_ && _); [apply clearTimeoutRetry_fresh|]; exact H.
Qed.

Lemma checkProvider_resume_armed (c : Check) (r : CommandResult) (now : Z)
    (windows : list BrowserWindow) (s : Service) :
  armed (checkProvider_resume c r now windows s)
  = if shouldRetryTimeout r (chk_opts c)
       && negb (bool_decide (chk_providerId c ∈ timeoutRetryPending s))
    then <[timerSeq s := (chk_providerId c, Z.max (chk_timeoutMs c * 2) 12000)]>
           (armed s)
    else armed s.
Proof.
  unfold checkProvider_resume. simpl.
  destruct (_ && _); reflexivity.
Qed.

Lemma checkProvider_resume_fresh (c : Check) (r : CommandResult) (now : Z)
    (windows : list BrowserWindow) (s : Service) :
  handles_fresh s -> handles_fresh (checkProvider_resume c r now windows s).
Proof.
  intros H k v. rewrite checkProvider_resume_armed.
  unfold checkProvider_resume. simpl.
  destruct (_ && _); simpl.
  - intros Hk. apply lookup_insert_Some in Hk as [[<- _] | [_ Hk]]; [lia|].
    specialize (H k v Hk). lia.
  - apply H.
Qed.

Lemma retry_callback_fresh (k : nat) (s : Service) :
  handles_fresh s -> handles_fresh (snd (retry_callback defs k s)).
Proof.
  intros H. unfold retry_callback.
  destruct (armed s !! k) as [[p ms]|]; [|exact H].
  set (s1 := {| timeoutRetryPending := _; timeoutRetryTimers := _;
                armed := delete k (armed s); timerSeq := _;
                providerStatusCache := _; sent := _ |}).
  assert (H1 : handles_fresh s1).
  { intros j v Hj. simpl in Hj. apply lookup_delete_Some in Hj as [_ Hj].
    exact (H j v Hj). }
  pose proof (checkProvider_begin_fresh p timeout_retry
                (Some {| opt_timeoutMs := Some ms; opt_allowRetry := Some false |})
                s1 H1) as H2.
  destruct (checkProvider_begin defs p timeout_retry _ s1) as [[c|] s2];
    simpl in *; exact H2.
Qed.

Lemma step_fresh (sys : System) (ev : Event) :
  handles_fresh (service sys) -> handles_fresh (service (step defs sys ev)).
Proof.
  intros H. destruct ev as [p reason opts | n env now windows | k]; simpl.
  - pose proof (checkProvider_begin_fresh p reason opts _ H) as H'.
    destruct (checkProvider_begin defs p reason opts (service sys)) as [[c|] s];
      simpl in *; exact H'.
  - destruct (inflight sys !! n) as [c|]; [|exact H]. simpl.
    pose proof (checkProvider_resume_fresh c
                  (run (tryCommands env (chk_def c) (chk_timeoutMs c)))
                  now windows _ H) as H'.
    destruct (chk_finally c); exact H'.
  - pose proof (retry_callback_fresh k _ H) as H'.
    destruct (retry_callback defs k (service sys)) as [[c|] s];
      simpl in *; exact H'.
Qed.

Lemma exec_snoc (evs : list Event) (ev : Event) :
  exec defs (evs ++ [ev]) = step defs (exec defs evs) ev.
Proof. unfold exec. rewrite fold_left_app. reflexivity. Qed.

Lemma exec_fresh (evs : list Event) : handles_fresh (service (exec defs evs)).
Proof.
  induction evs as [|ev evs IH] using rev_ind.
  - intros k v Hk. simpl in Hk. rewrite lookup_empty in Hk. discriminate.
  - rewrite exec_snoc. apply step_fresh. exact IH.
Qed.

Lemma step_settle_service (sys : System) (n : nat) (c : Check) (env : Env)
    (now : Z) (windows : list BrowserWindow) :
  inflight sys !! n = Some c ->
  service (step defs sys (Settle n env now windows))
  = let s1 := checkProvider_resume c
                (run (tryCommands env (chk_def c) (chk_timeoutMs c)))
                now windows (service sys) in
    if chk_finally c then retry_finally (chk_providerId c) s1 else s1.
Proof. intros H. simpl. rewrite H. reflexivity. Qed.

Lemma step_settle_armed (sys : System) (n : nat) (c : Check) (env : Env)
    (now : Z) (windows : list BrowserWindow) :
  inflight sys !! n = Some c ->
  armed (service (step defs sys (Settle n env now windows)))
  = armed (checkProvider_resume c
             (run (tryCommands env (chk_def c) (chk_timeoutMs c)))
             now windows (service sys)).
Proof.
  intros H. rewrite (step_settle_service sys n c env now windows H). simpl.
  destruct (chk_finally c); reflexivity.
Qed.

End Scheduler.

Lemma retry_tested_iff (c : Check) (r : CommandResult) (s : Service) :
  path_wf r ->
  shouldRetryTimeout r (chk_opts c)
  && negb (bool_decide (chk_providerId c ∈ timeoutRetryPending s)) = true
  <-> retry_tested c r s.
Proof.
  intros Hwf. unfold retry_tested.
  rewrite andb_true_iff, negb_true_iff, bool_decide_eq_false.
  rewrite (shouldRetryTimeout_iff r (chk_opts c) Hwf). tauto.
Qed.

Lemma fire_starts_retry (defs : list CliDefinition) (sys : System) (k : nat)
    (p : string) (ms : Z) (def : CliDefinition) :
  armed (service sys) !! k = Some (p, ms) ->
  find (fun d => bool_decide (id d = p)) defs = Some def ->
  inflight (step defs sys (Fire k)) !! checkSeq sys
  = Some (retry_check def p ms)
  ∧ armed (service (step defs sys (Fire k))) = delete k (armed (service sys)).
Proof.
  intros Hk Hdef. simpl. unfold retry_callback. rewrite Hk.
  unfold checkProvider_begin. rewrite Hdef. simpl.
  split; [apply lookup_insert_eq | reflexivity].
Qed.

Lemma settle_retry_arms_nothing (defs : list CliDefinition) (sys : System)
    (n : nat) (c : Check) (env : Env) (now : Z) (windows : list BrowserWindow) :
  inflight sys !! n = Some c ->
  chk_opts c ≫= opt_allowRetry = Some false ->
  armed (service (step defs sys (Settle n env now windows)))
  = armed (service sys).
Proof.
  intros Hn Hopt. rewrite (step_settle_armed defs sys n c env now windows Hn).
  rewrite checkProvider_resume_armed. unfold shouldRetryTimeout.
  rewrite Hopt. simpl. rewrite !andb_false_r. reflexivity.
Qed.

(** What the completion of a check does about the retry, in the terms of
    the code: a timer is armed exactly when [retry_tested] holds, that is
    by the flag of the provider; the timer carries the provider id and the
    timeout max(2 x original, 12000); its expiry starts [retry_check],
    whose completion arms no timer. *)
Lemma completion_arms_by_flag (defs : list CliDefinition)
    (evs : list Event) (n : nat) (c : Check) (env : Env) (now : Z)
    (windows : list BrowserWindow) :
  let sys := exec defs evs in
  inflight sys !! n = Some c ->
  let r := run (tryCommands env (chk_def c) (chk_timeoutMs c)) in
  let sys' := step defs sys (Settle n env now windows) in
  let p := chk_providerId c in
  let retryTimeoutMs := Z.max (2 * chk_timeoutMs c) 12000 in
  ((∃ k, armed (service sys) !! k = None ∧ is_Some (armed (service sys') !! k))
   <-> retry_tested c r (service sys))
  ∧ (retry_tested c r (service sys) ->
     ∃ k, armed (service sys) !! k = None
          ∧ armed (service sys')
            = <[k := (p, retryTimeoutMs)]> (armed (service sys)))
  ∧ (¬ retry_tested c r (service sys) ->
     armed (service sys') = armed (service sys))
  ∧ (∀ later k def,
       armed (service later) !! k = Some (p, retryTimeoutMs) ->
       find (fun d => bool_decide (id d = p)) defs = Some def ->
       inflight (step defs later (Fire k)) !! checkSeq later
       = Some (retry_check def p retryTimeoutMs)
       ∧ armed (service (step defs later (Fire k)))
         = delete k (armed (service later)))
  ∧ (∀ later m def env' now' windows',
       inflight later !! m = Some (retry_check def p retryTimeoutMs) ->
       armed (service (step defs later (Settle m env' now' windows')))
       = armed (service later)).
Proof.
  intros sys Hn r sys' p retryTimeoutMs.
  assert (Hwf : path_wf r) by apply tryCommands_wf.
  assert (Harmed : armed (service sys')
                   = if shouldRetryTimeout r (chk_opts c)
                        && negb (bool_decide (p ∈ timeoutRetryPending (service sys)))
                     then <[timerSeq (service sys) := (p, retryTimeoutMs)]>
                            (armed (service sys))
                     else armed (service sys)).
  { subst sys'. rewrite (step_settle_armed defs sys n c env now windows Hn).
    rewrite checkProvider_resume_armed. subst retryTimeoutMs.
    rewrite (Z.mul_comm 2). reflexivity. }
  assert (Hfresh : armed (service sys) !! timerSeq (service sys) = None).
  { destruct (armed (service sys) !! timerSeq (service sys)) as [v|] eqn:Hv;
      [|reflexivity].
    pose proof (exec_fresh defs evs _ _ Hv) as Hlt. fold sys in Hlt. lia. }
  pose proof (retry_tested_iff c r (service sys) Hwf) as Hiff. fold p in Hiff.
  destruct (shouldRetryTimeout r (chk_opts c)
            && negb (bool_decide (p ∈ timeoutRetryPending (service sys))))
    eqn:Hb.
  - assert (Hw : retry_tested c r (service sys)) by (apply Hiff; reflexivity).
    split; [|split; [|split; [|split]]].
    + split; [intros _; exact Hw|]. intros _.
      exists (timerSeq (service sys)). split; [exact Hfresh|].
      rewrite Harmed, lookup_insert_eq. eexists. reflexivity.
    + intros _. exists (timerSeq (service sys)). split; [exact Hfresh | exact Harmed].
    + intros Hnw. contradiction.
    + intros later k def Hk Hdef. apply fire_starts_retry; assumption.
    + intros later m def env' now' windows' Hm.
      apply (settle_retry_arms_nothing defs later m _ env' now' windows' Hm).
      reflexivity.
  - assert (Hnw : ¬ retry_tested c r (service sys)).
    { intros Hw. apply Hiff in Hw. discriminate. }
    split; [|split; [|split; [|split]]].
    + split; [|intros Hw; contradiction].
      intros (k & Hnone & Hsome). rewrite Harmed, Hnone in Hsome.
      destruct Hsome as [v Hv]. discriminate.
    + intros Hw. contradiction.
    + intros _. exact Harmed.
    + intros later k def Hk Hdef. apply fire_starts_retry; assumption.
    + intros later m def env' now' windows' Hm.
      apply (settle_retry_arms_nothing defs later m _ env' now' windows' Hm).
      reflexivity.
Qed.

(** C5, the code at the failing input.  In the state reached before the
    last turn of [trace_two_timers] the second of the two manual checks of
    provider x is still suspended, and a retry of x is pending: timer 1,
    armed by the first of the two, waits for its delay.  The flag of x is
    not set any more, the [finally] of the earlier retry has deleted it.
    The check then times out with a resolved path and without
    allowRetry=false: the test of the code passes and timer 2 is armed,
    although the conditions of the specification do not hold. *)
Theorem C5_retry_armed_while_retry_pending :
  let before := exec [def_x]
                  (trace_four_checks
                   ++ [Settle 2 env_slow 8000 []; Settle 1 env_ready 8200 []]) in
  let r := run (tryCommands env_slow def_x 3000) in
  let after := step [def_x] before (Settle 3 env_slow 8500 []) in
  inflight before !! 3%nat = Some check_x
  ∧ timedOut r = Some true
  ∧ resolvedPath r = Some "/usr/local/bin/x"
  ∧ chk_opts check_x ≫= opt_allowRetry = None
  ∧ armed (service before) !! 1%nat = Some ("x", 12000)
  ∧ retry_pending "x" before
  ∧ ¬ retry_wanted check_x r before
  ∧ retry_tested check_x r (service before)
  ∧ armed (service before) !! 2%nat = None
  ∧ armed (service after) !! 2%nat = Some ("x", 12000)
  ∧ armed (service after) !! 1%nat = Some ("x", 12000).
Proof.
  intros before r after.
  assert (Hflag : bool_decide ("x" ∈ timeoutRetryPending (service before)) = false)
    by (vm_compute; reflexivity).
  assert (Harmed : armed (service before) !! 1%nat = Some ("x", 12000))
    by (vm_compute; reflexivity).
  assert (Hpending : retry_pending "x" before).
  { left. exists 1%nat, 12000. exact Harmed. }
  split; [vm_compute; reflexivity|].
  split; [vm_compute; reflexivity|].
  split; [vm_compute; reflexivity|].
  split; [reflexivity|].
  split; [exact Harmed|].
  split; [exact Hpending|].
  split; [intros (_ & _ & _ & Hnot); exact (Hnot Hpending)|].
  split.
  { split; [vm_compute; reflexivity|].
    split; [left; vm_compute; discriminate|].
    split; [discriminate|].
    apply bool_decide_eq_false in Hflag. exact Hflag. }
  split; [vm_compute; reflexivity|].
  split; vm_compute; reflexivity.
Qed.


(** ** Persisting and broadcasting *)

Lemma emitStatusUpdate_map (p : string) (st : ProviderStatus)
    (windows : list BrowserWindow) :
  emitStatusUpdate p st windows
  = map (fun win => {| to_window := win_id win;
                       channel := "provider:status-updated";
                       payload := (p, st) |})
        (filter (fun win => send_throws win = false) windows).
Proof.
  unfold emitStatusUpdate.
  induction windows as [|win windows IH]; simpl; [reflexivity|].
  rewrite filter_cons, IH.
  destruct (decide (send_throws win = false)) as [H|H];
    destruct (send_throws win); simpl; congruence.
Qed.

Lemma checkProvider_resume_store (c : Check) (r : CommandResult) (now : Z)
    (windows : list BrowserWindow) (s : Service) :
  let st := persisted_status (chk_def c) r now in
  providerStatusCache (checkProvider_resume c r now windows s)
  = <[id (chk_def c) := st]> (providerStatusCache s)
  ∧ sent (checkProvider_resume c r now windows s)
    = (sent s ++ emitStatusUpdate (id (chk_def c)) st windows)%list.
Proof.
  unfold checkProvider_resume. simpl.
  destruct (_ && _); split; reflexivity.
Qed.

(** C10.  A completed check writes to the status store, under the
    provider's id, the status made of the four fields installed, path,
    version and lastChecked: installed is true exactly when the
    classification is connected (missing, needs_key and error all give
    false), path and version are those of the Command Result, lastChecked
    is the current time.  The entries of other providers are left as they
    were, and that same status is then sent, on the channel
    provider:status-updated, to every window whose send does not throw. *)
Theorem C10_persist_and_broadcast (defs : list CliDefinition) (sys : System)
    (n : nat) (c : Check) (env : Env) (now : Z) (windows : list BrowserWindow) :
  inflight sys !! n = Some c ->
  let r := run (tryCommands env (chk_def c) (chk_timeoutMs c)) in
  let code := resolveStatus (chk_def c) r in
  let sys' := step defs sys (Settle n env now windows) in
  ∃ st,
    providerStatusCache (service sys') !! id (chk_def c) = Some st
    ∧ (∀ p, p <> id (chk_def c) ->
         providerStatusCache (service sys') !! p
         = providerStatusCache (service sys) !! p)
    ∧ (installed st = true <-> code = connected)
    ∧ (code = missing ∨ code = needs_key ∨ code = error -> installed st = false)
    ∧ path st = resolvedPath r
    ∧ ps_version st = version r
    ∧ lastChecked st = now
    ∧ sent (service sys')
      = (sent (service sys)
         ++ map (fun win => {| to_window := win_id win;
                               channel := "provider:status-updated";
                               payload := (id (chk_def c), st) |})
                (filter (fun win => send_throws win = false) windows))%list.
Proof.
  intros Hn r code sys'.
  exists (persisted_status (chk_def c) r now).
  assert (Hsvc : providerStatusCache (service sys')
                 = <[id (chk_def c) := persisted_status (chk_def c) r now]>
                     (providerStatusCache (service sys))
                 ∧ sent (service sys')
                   = (sent (service sys)
                      ++ emitStatusUpdate (id (chk_def c))
                           (persisted_status (chk_def c) r now) windows)%list).
  { subst sys'. rewrite (step_settle_service defs sys n c env now windows Hn).
    fold r. simpl.
    destruct (checkProvider_resume_store c r now windows (service sys))
      as [H1 H2].
    destruct (chk_finally c); simpl; split; assumption. }
  destruct Hsvc as [Hstore Hsent].
  split; [rewrite Hstore; apply lookup_insert_eq|].
  split; [intros p Hp; rewrite Hstore; apply lookup_insert_ne; congruence|].
  split; [simpl; fold code; apply bool_decide_eq_true|].
  split.
  { simpl. fold code. intros H. apply bool_decide_eq_false.
    destruct H as [-> | [-> | ->]]; discriminate. }
  repeat (split; [reflexivity|]).
  rewrite Hsent, emitStatusUpdate_map. reflexivity.
Qed.

Lemma C10_witness :
  let sys := exec [def_x] [Call "x" manual None] in
  let windows := [ {| win_id := 1; send_throws := false |};
                   {| win_id := 2; send_throws := true |};
                   {| win_id := 3; send_throws := false |} ] in
  let sys' := step [def_x] sys (Settle 0 env_ready 42 windows) in
  let st := {| installed := true; path := Some "/usr/local/bin/x";
               ps_version := Some "2.3.1"; lastChecked := 42 |} in
  inflight sys !! 0%nat = Some check_x
  ∧ providerStatusCache (service sys') !! "x" = Some st
  ∧ sent (service sys')
    = [ {| to_window := 1; channel := "provider:status-updated";
           payload := ("x", st) |};
        {| to_window := 3; channel := "provider:status-updated";
           payload := ("x", st) |} ].
Proof.
  intros sys windows sys' st.
  assert (Hn : inflight sys !! 0%nat = Some check_x) by reflexivity.
  split; [exact Hn|].
  destruct (C10_persist_and_broadcast [def_x] sys 0 check_x env_ready 42
              windows Hn)
    as (st' & Hstore & _ & _ & _ & _ & _ & _ & Hsent).
  assert (Hst : st' = st).
  { assert (H : providerStatusCache (service sys') !! "x" = Some st)
      by reflexivity.
    change (id (chk_def check_x)) with "x" in Hstore.
    fold sys' in Hstore. congruence. }
  subst st'. split; [exact Hstore | exact Hsent].
Defined.

(** ** Two retry timers for one provider *)

(** C4, the code at the failing input.  After [trace_two_timers] two retry
    timers of provider x are armed at once, and the map of the service
    knows only the later one.  The state before the last turn has a timer
    armed while the pending flag is cleared (by the [finally] of the
    earlier retry), and a manual check requested there cancels nothing. *)
Theorem C4_two_retry_timers_armed :
  let sys := exec [def_x] trace_two_timers in
  let before := exec [def_x]
                  (trace_four_checks
                   ++ [Settle 2 env_slow 8000 []; Settle 1 env_ready 8200 []]) in
  armed (service sys) !! 1%nat = Some ("x", 12000)
  ∧ armed (service sys) !! 2%nat = Some ("x", 12000)
  ∧ length (armed_for "x" (service sys)) = 2%nat
  ∧ timeoutRetryTimers (service sys) !! "x" = Some 2%nat
  ∧ armed (service before) !! 1%nat = Some ("x", 12000)
  ∧ bool_decide ("x" ∈ timeoutRetryPending (service before)) = false
  ∧ armed (service (step [def_x] before (Call "x" manual None))) !! 1%nat
    = Some ("x", 12000).
Proof. vm_compute. repeat split; reflexivity. Qed.

(** ** Further properties of the service *)

Lemma not_in_difference_singleton (p : string) (X : gset string) :
  p ∉ X ∖ {[p]}.
Proof.
  intros Hin. apply elem_of_difference in Hin as [_ Hnot].
  apply Hnot. apply elem_of_singleton. reflexivity.
Qed.

(** X1.  Every Command Result the probe cascade produces has a resolved
    path that is null or a non-empty string. *)
Theorem X1_cascade_path_never_empty (env : Env) (def : CliDefinition) (t : Z)
    (log : list SysCall) :
  resolvedPath (fst (tryCommands env def t log)) <> Some "".
Proof. apply tryCommands_wf. Qed.

(** X2.  Without a status resolver the classifier never answers
    needs_key. *)
Theorem X2_generic_classifier_never_needs_key (def : CliDefinition)
    (r : CommandResult) :
  statusResolver def = None -> resolveStatus def r <> needs_key.
Proof. apply resolveStatus_never_needs_key. Qed.

Lemma X2_witness :
  statusResolver def_x = None ∧ resolveStatus def_x result_blank <> needs_key.
Proof.
  split; [reflexivity|].
  apply (X2_generic_classifier_never_needs_key def_x result_blank).
  reflexivity.
Defined.

(** X4.  A checkProvider call for an id that is in no definition changes
    nothing and suspends no check. *)
Theorem X4_unknown_provider_is_noop (defs : list CliDefinition) (sys : System)
    (p : string) (reason : Reason) (opts : option CheckOpts) :
  find (fun d => bool_decide (id d = p)) defs = None ->
  service (step defs sys (Call p reason opts)) = service sys
  ∧ inflight (step defs sys (Call p reason opts)) = inflight sys.
Proof.
  intros H. simpl. unfold checkProvider_begin. rewrite H. simpl.
  split; reflexivity.
Qed.

Lemma X4_witness :
  find (fun d => bool_decide (id d = "nobody")) [def_x] = None
  ∧ inflight (step [def_x] (boot) (Call "nobody" manual None)) = ∅.
Proof.
  split; [reflexivity|].
  destruct (X4_unknown_provider_is_noop [def_x] boot "nobody" manual None
              eq_refl) as [_ H].
  exact H.
Defined.

(** X5.  A checkProvider call with a reason other than timeout-retry, made
    while the pending flag of the provider is set, clears the flag, forgets
    the timer handle and disarms the timer the handle names. *)
Theorem X5_fresh_check_cancels_flagged_retry (defs : list CliDefinition)
    (s : Service) (p : string) (reason : Reason) (opts : option CheckOpts)
    (def : CliDefinition) :
  find (fun d => bool_decide (id d = p)) defs = Some def ->
  reason <> timeout_retry ->
  p ∈ timeoutRetryPending s ->
  let s' := snd (checkProvider_begin defs p reason opts s) in
  (p ∉ timeoutRetryPending s')
  ∧ timeoutRetryTimers s' !! p = None
  ∧ ∀ k, timeoutRetryTimers s !! p = Some k -> armed s' !! k = None.
Proof.
  intros Hdef Hreason Hp. unfold checkProvider_begin. rewrite Hdef.
  rewrite (bool_decide_eq_true_2 _ Hreason).
  rewrite (bool_decide_eq_true_2 _ Hp).
  simpl. unfold clearTimeoutRetry.
  destruct (timeoutRetryTimers s !! p) as [pendingTimer|] eqn:Ht; simpl.
  - split; [apply not_in_difference_singleton|]. split; [apply lookup_delete_eq|].
    intros k [= <-]. apply lookup_delete_eq.
  - split; [apply not_in_difference_singleton|]. split; [exact Ht|]. intros k Hk. discriminate.
Qed.

Lemma X5_witness :
  let s := service (exec [def_x] [Call "x" manual None; Settle 0 env_slow 3000 []]) in
  let s' := snd (checkProvider_begin [def_x] "x" manual None s) in
  "x" ∈ timeoutRetryPending s
  ∧ armed s !! 0%nat = Some ("x", 12000)
  ∧ armed s' !! 0%nat = None.
Proof.
  intros s s'.
  assert (Hp : "x" ∈ timeoutRetryPending s).
  { apply (bool_decide_eq_true_1 ("x" ∈ timeoutRetryPending s)).
    vm_compute. reflexivity. }
  split; [exact Hp|]. split; [reflexivity|].
  destruct (X5_fresh_check_cancels_flagged_retry [def_x] s "x" manual None
              def_x eq_refl ltac:(discriminate) Hp) as (_ & _ & H).
  apply H. reflexivity.
Defined.

(** X6.  When the check made by the retry timer completes, the pending flag
    of its provider is cleared. *)
Theorem X6_retry_completion_clears_flag (defs : list CliDefinition)
    (sys : System) (n : nat) (def : CliDefinition) (p : string) (ms : Z)
    (env : Env) (now : Z) (windows : list BrowserWindow) :
  inflight sys !! n = Some (retry_check def p ms) ->
  p ∉ timeoutRetryPending (service (step defs sys (Settle n env now windows))).
Proof.
  intros Hn. rewrite (step_settle_service defs sys n _ env now windows Hn).
  simpl. apply not_in_difference_singleton.
Qed.

Lemma X6_witness :
  let sys := exec [def_x]
               [Call "x" manual None; Settle 0 env_slow 3000 []; Fire 0] in
  inflight sys !! 1%nat = Some (retry_check def_x "x" 12000)
  ∧ "x" ∈ timeoutRetryPending (service sys)
  ∧ "x" ∉ timeoutRetryPending
           (service (step [def_x] sys (Settle 1 env_ready 8200 []))).
Proof.
  intros sys.
  assert (Hn : inflight sys !! 1%nat = Some (retry_check def_x "x" 12000))
    by reflexivity.
  split; [exact Hn|]. split.
  - apply (bool_decide_eq_true_1 ("x" ∈ timeoutRetryPending (service sys))).
    vm_compute. reflexivity.
  - apply (X6_retry_completion_clears_flag [def_x] sys 1 def_x "x" 12000
             env_ready 8200 [] Hn).
Defined.

(** ** quoteForCmdExe *)

Section Quoting.

Local Arguments String.append !_ _ / : simpl nomatch.

Lemma replace_chars_ext (hit : ascii -> bool) (f g : ascii -> string) (s : string) :
  (∀ c, hit c = true -> f c = g c) ->
  Js.replace_chars hit f s = Js.replace_chars hit g s.
Proof.
  intros H. induction s as [|c s IH]; simpl; [reflexivity|].
  rewrite IH. destruct (hit c) eqn:Hc; [rewrite (H c Hc)|]; reflexivity.
Qed.

Lemma escape_with_cons (e : ascii) (hit : ascii -> bool) (c : ascii) (s : string) :
  escape_with e hit (String c s)
  = if hit c then String e (String c (escape_with e hit s))
    else String c (escape_with e hit s).
Proof. unfold escape_with. simpl. destruct (hit c); reflexivity. Qed.

Lemma escape_with_head (e : ascii) (hit : ascii -> bool) (s : string)
    (d : ascii) (r : string) :
  hit e = false -> escape_with e hit s = String d r -> hit d = false.
Proof.
  intros He. destruct s as [|c s]; [discriminate|].
  rewrite escape_with_cons. destruct (hit c) eqn:Hc; intros [= <- _]; assumption.
Qed.

Lemma escape_with_nil (e : ascii) (hit : ascii -> bool) (s : string) :
  escape_with e hit s = "" -> s = "".
Proof.
  destruct s as [|c s]; [reflexivity|].
  rewrite escape_with_cons. destruct (hit c); discriminate.
Qed.

Lemma unescape_escape (e : ascii) (hit : ascii -> bool) (s : string) :
  unescape e hit (escape_with e hit s) = s.
Proof.
  induction s as [|c s IH]; [reflexivity|].
  rewrite escape_with_cons. destruct (hit c) eqn:Hc.
  - simpl. rewrite Ascii.eqb_refl, Hc, IH. reflexivity.
  - simpl. destruct (Ascii.eqb c e) eqn:Hce; [|rewrite IH; reflexivity].
    apply Ascii.eqb_eq in Hce. subst c.
    destruct (escape_with e hit s) as [|d r] eqn:Hs.
    + apply escape_with_nil in Hs. subst s. reflexivity.
    + rewrite (escape_with_head e hit s d r Hc Hs). rewrite IH. reflexivity.
Qed.

Lemma escape_with_length (e : ascii) (hit : ascii -> bool) (s : string) :
  (String.length s <= String.length (escape_with e hit s))%nat.
Proof.
  induction s as [|c s IH]; [reflexivity|].
  rewrite escape_with_cons. destruct (hit c); simpl; lia.
Qed.

Lemma drop_last_snoc (s : string) (c : ascii) : drop_last (s +:+ one c) = s.
Proof.
  induction s as [|a s IH]; [reflexivity|].
  change (drop_last (String a (s +:+ one c)) = String a s).
  destruct (s +:+ one c) as [|x y] eqn:Hs.
  - destruct s; discriminate.
  - change (String a (drop_last (String x y)) = String a s).
    rewrite IH. reflexivity.
Qed.

(** The body that [quoteForCmdExe] puts between the quotes. *)
Lemma quote_body (s : string) :
  s <> "" -> Js.exists_char cmd_special s = true ->
  quoteForCmdExe s
  = String DQUOTE
      (escape_with "^" cmd_meta
         (escape_with "^" (Ascii.eqb "!")
            (escape_with "%" (Ascii.eqb "%") s)) +:+ one DQUOTE).
Proof.
  intros Hne Hsp. unfold quoteForCmdExe.
  destruct s as [|c s]; [congruence|]. simpl String.length. simpl Nat.eqb.
  rewrite Hsp. simpl negb. cbv iota.
  unfold escape_with.
  rewrite (replace_chars_ext (Ascii.eqb "%") (fun _ => "%%")
             (fun c => String "%" (one c))).
  2:{ intros a Ha. apply Ascii.eqb_eq in Ha. subst a. reflexivity. }
  rewrite (replace_chars_ext (Ascii.eqb "!") (fun _ => "^!")
             (fun c => String "^" (one c))).
  2:{ intros a Ha. apply Ascii.eqb_eq in Ha. subst a. reflexivity. }
  reflexivity.
Qed.

Lemma quote_plain (s : string) :
  s <> "" -> Js.exists_char cmd_special s = false -> quoteForCmdExe s = s.
Proof.
  intros Hne Hsp. unfold quoteForCmdExe.
  destruct s as [|c s]; [congruence|]. simpl String.length. simpl Nat.eqb.
  rewrite Hsp. reflexivity.
Qed.

Lemma unquote_quote (s : string) : unquoteCmdExe (quoteForCmdExe s) = s.
Proof.
  destruct s as [|c s]; [reflexivity|].
  destruct (Js.exists_char cmd_special (String c s)) eqn:Hsp.
  - rewrite quote_body by (congruence || assumption).
    unfold unquoteCmdExe. rewrite Ascii.eqb_refl, drop_last_snoc.
    rewrite !unescape_escape. reflexivity.
  - rewrite quote_plain by (congruence || assumption).
    unfold unquoteCmdExe.
    destruct (Ascii.eqb c DQUOTE) eqn:Hc; [|reflexivity].
    apply Ascii.eqb_eq in Hc. subst c. simpl in Hsp. discriminate.
Qed.

(** X7.  An argument quoted by quoteForCmdExe can be read back: undoing the
    quotes and the three replacements returns the argument.  Hence two
    different arguments are never quoted to the same text. *)
Theorem X7_quoteForCmdExe_reads_back :
  (∀ s, unquoteCmdExe (quoteForCmdExe s) = s)
  ∧ (∀ a b, quoteForCmdExe a = quoteForCmdExe b -> a = b).
Proof.
  split; [exact unquote_quote|].
  intros a b H. rewrite <- (unquote_quote a), <- (unquote_quote b), H.
  reflexivity.
Qed.

Lemma caret_escaped_escape (s : string) :
  caret_escaped (escape_with "^" cmd_meta s) = true.
Proof.
  induction s as [|c s IH]; [reflexivity|].
  rewrite escape_with_cons. destruct (cmd_meta c) eqn:Hc.
  - simpl. exact IH.
  - simpl. destruct (Ascii.eqb c "^") eqn:Hcc.
    + apply Ascii.eqb_eq in Hcc. subst c. discriminate.
    + rewrite Hc. simpl. exact IH.
Qed.

Lemma percents_doubled_first (s : string) :
  percents_doubled (escape_with "%" (Ascii.eqb "%") s) = true.
Proof.
  induction s as [|c s IH]; [reflexivity|].
  rewrite escape_with_cons. destruct (Ascii.eqb "%" c) eqn:Hc.
  - apply Ascii.eqb_eq in Hc. subst c. simpl. exact IH.
  - simpl. rewrite Ascii.eqb_sym, Hc. exact IH.
Qed.

Lemma percents_doubled_kept (e : ascii) (hit : ascii -> bool) :
  Ascii.eqb e "%" = false -> hit "%"%char = false ->
  ∀ s, (percents_doubled s = true ->
        percents_doubled (escape_with e hit s) = true)
       ∧ (∀ c, percents_doubled (String c s) = true ->
               percents_doubled (escape_with e hit (String c s)) = true).
Proof.
  intros He Hh. induction s as [|d s [IH1 IH2]].
  - split; [reflexivity|]. intros c. rewrite escape_with_cons. simpl.
    destruct (Ascii.eqb c "%") eqn:Hc; [discriminate|]. intros _.
    destruct (hit c); simpl; rewrite ?He, ?Hc; reflexivity.
  - split; [apply IH2|]. intros c.
    rewrite (escape_with_cons e hit c). simpl.
    destruct (Ascii.eqb c "%") eqn:Hc.
    + apply Ascii.eqb_eq in Hc. subst c. rewrite Hh.
      intros H. apply andb_true_iff in H as [Hd Hs].
      apply Ascii.eqb_eq in Hd. subst d.
      rewrite escape_with_cons, Hh. simpl. apply IH1. exact Hs.
    + intros H. destruct (hit c); simpl; rewrite ?He, ?Hc; apply IH2; exact H.
Qed.

(** X8.  When the argument holds a character that needs quoting, the
    result is the body between two double quotes, and in the body every
    double quote and every other metacharacter of the command interpreter is
    taken along by a caret, no caret dangles, and every percent sign is
    doubled. *)
Theorem X8_quoteForCmdExe_escapes (s : string) :
  Js.exists_char cmd_special s = true ->
  ∃ body,
    quoteForCmdExe s = String DQUOTE (body +:+ one DQUOTE)
    ∧ caret_escaped body = true
    ∧ percents_doubled body = true.
Proof.
  intros Hsp.
  assert (Hne : s <> "") by (intros ->; discriminate).
  eexists. split; [apply quote_body; assumption|]. split.
  - apply caret_escaped_escape.
  - apply (percents_doubled_kept "^" cmd_meta eq_refl eq_refl).
    apply (percents_doubled_kept "^" (Ascii.eqb "!") eq_refl eq_refl).
    apply percents_doubled_first.
Qed.

Lemma X8_witness :
  Js.exists_char cmd_special "a b%c!d^" = true
  ∧ ∃ body, quoteForCmdExe "a b%c!d^" = String DQUOTE (body +:+ one DQUOTE)
            ∧ caret_escaped body = true ∧ percents_doubled body = true.
Proof.
  split; [reflexivity|].
  apply (X8_quoteForCmdExe_escapes "a b%c!d^"). reflexivity.
Defined.

(** X9.  quoteForCmdExe never returns the empty string, and it returns its
    argument unchanged exactly when the argument is not empty and holds no
    white space, no metacharacter, no percent sign and no exclamation
    mark. *)
Theorem X9_quoteForCmdExe_plain (s : string) :
  quoteForCmdExe s <> ""
  ∧ (quoteForCmdExe s = s
     <-> s <> "" ∧ Js.exists_char cmd_special s = false).
Proof.
  destruct s as [|c s].
  - split; [discriminate|]. split; [discriminate | intros [H _]; congruence].
  - destruct (Js.exists_char cmd_special (String c s)) eqn:Hsp.
    + rewrite quote_body by (congruence || assumption).
      split; [discriminate|]. split; [|intros [_ H]; discriminate].
      intros H. apply (f_equal String.length) in H.
      simpl in H. rewrite slength_app in H. simpl in H.
      pose proof (escape_with_length "%" (Ascii.eqb "%") (String c s)) as L1.
      pose proof (escape_with_length "^" (Ascii.eqb "!")
                    (escape_with "%" (Ascii.eqb "%") (String c s))) as L2.
      pose proof (escape_with_length "^" cmd_meta
                    (escape_with "^" (Ascii.eqb "!")
                       (escape_with "%" (Ascii.eqb "%") (String c s)))) as L3.
      simpl in L1. lia.
    + rewrite quote_plain by (congruence || assumption).
      split; [discriminate|]. split; [intros _; split; congruence | reflexivity].
Qed.

End Quoting.

(** ** The locate utility *)

Section Trimming.

Lemma trimStart_head (s : string) (c : ascii) (r : string) :
  Js.trimStart s = String c r -> Js.is_space c = false.
Proof.
  induction s as [|a s IH]; simpl; [discriminate|].
  destruct (Js.is_space a) eqn:Ha; [exact IH|].
  intros [= <- _]. exact Ha.
Qed.

Lemma trimEnd_cons_nonspace (c : ascii) (r : string) :
  Js.is_space c = false ->
  Js.trimEnd (String c r) = String c (Js.trimEnd r).
Proof. intros Hc. simpl. rewrite Hc. destruct (Js.trimEnd r); reflexivity. Qed.

Lemma trimEnd_idem (s : string) : Js.trimEnd (Js.trimEnd s) = Js.trimEnd s.
Proof.
  induction s as [|c s IH]; [reflexivity|].
  simpl. destruct (Js.trimEnd s) as [|d t] eqn:Ht.
  - destruct (Js.is_space c) eqn:Hc; [reflexivity|].
    simpl. rewrite Hc. reflexivity.
  - simpl in *. rewrite IH. reflexivity.
Qed.

Lemma trim_idem (s : string) : Js.trim (Js.trim s) = Js.trim s.
Proof.
  unfold Js.trim.
  destruct (Js.trimStart s) as [|c r] eqn:Hs; [reflexivity|].
  pose proof (trimStart_head s c r Hs) as Hc.
  rewrite (trimEnd_cons_nonspace c r Hc).
  simpl Js.trimStart. rewrite Hc.
  rewrite <- (trimEnd_cons_nonspace c r Hc). apply trimEnd_idem.
Qed.

Lemma exists_char_trimStart (hit : ascii -> bool) (s : string) :
  Js.exists_char hit (Js.trimStart s) = true -> Js.exists_char hit s = true.
Proof.
  induction s as [|c s IH]; simpl; [discriminate|].
  destruct (Js.is_space c); [|exact (fun H => H)].
  intros H. rewrite (IH H). apply orb_true_r.
Qed.

Lemma exists_char_trimEnd (hit : ascii -> bool) (s : string) :
  Js.exists_char hit (Js.trimEnd s) = true -> Js.exists_char hit s = true.
Proof.
  induction s as [|c s IH]; simpl; [discriminate|].
  destruct (Js.trimEnd s) as [|d t] eqn:Ht.
  - destruct (Js.is_space c); simpl; [discriminate|].
    rewrite orb_false_r. intros ->. reflexivity.
  - simpl in *. intros H. apply orb_true_iff in H as [H|H].
    + rewrite H. reflexivity.
    + rewrite (IH H). apply orb_true_r.
Qed.

Lemma exists_char_of_list (hit : ascii -> bool) (l : list ascii) :
  Js.exists_char hit (string_of_list_ascii l) = existsb hit l.
Proof. induction l as [|c l IH]; simpl; [reflexivity | rewrite IH; reflexivity]. Qed.

Lemma existsb_rev_eq {A} (f : A -> bool) (l : list A) :
  existsb f (rev l) = existsb f l.
Proof.
  induction l as [|a l IH]; [reflexivity|].
  simpl. rewrite existsb_app, IH. simpl. rewrite orb_false_r. apply orb_comm.
Qed.

Lemma split_lines_acc_no_LF (s : string) :
  ∀ cur line,
    existsb (Ascii.eqb Js.LF) cur = false ->
    In line (Js.split_lines_acc cur s) ->
    Js.exists_char (Ascii.eqb Js.LF) line = false.
Proof.
  assert (Hpiece : ∀ cur, existsb (Ascii.eqb Js.LF) cur = false ->
            Js.exists_char (Ascii.eqb Js.LF) (string_of_list_ascii (rev cur)) = false).
  { intros cur H. rewrite exists_char_of_list, existsb_rev_eq. exact H. }
  assert (Hpush : ∀ cur c, existsb (Ascii.eqb Js.LF) cur = false ->
            Ascii.eqb c Js.LF = false ->
            existsb (Ascii.eqb Js.LF) (c :: cur) = false).
  { intros cur c H Hc. cbn [existsb]. rewrite Ascii.eqb_sym, Hc. exact H. }
  induction s as [|c s IH]; intros cur line Hcur; simpl.
  - intros [<- | []]. apply Hpiece. exact Hcur.
  - destruct (Ascii.eqb c Js.LF) eqn:Hc.
    + intros [<- | H]; [apply Hpiece; exact Hcur | apply (IH [] line eq_refl H)].
    + destruct (Ascii.eqb c Js.CR) eqn:Hr.
      * destruct s as [|d s'].
        -- intros H. apply (IH (c :: cur) line (Hpush cur c Hcur Hc) H).
        -- destruct (Ascii.eqb d Js.LF) eqn:Hd.
           ++ intros [<- | H]; [apply Hpiece; exact Hcur|].
              (* the rest starts after the line feed *)
              specialize (IH [] line eq_refl). simpl in IH. rewrite Hd in IH.
              apply IH. right. exact H.
           ++ intros H. apply (IH (c :: cur) line (Hpush cur c Hcur Hc) H).
      * intros H. apply (IH (c :: cur) line (Hpush cur c Hcur Hc) H).
Qed.

End Trimming.

Lemma head_filter_elem {A} (P : A -> Prop) `{!∀ x, Decision (P x)}
    (l : list A) (x : A) :
  head (filter P l) = Some x -> In x l ∧ P x.
Proof.
  induction l as [|a l IH]; simpl; [discriminate|].
  rewrite filter_cons. destruct (decide (P a)) as [Ha|Ha]; simpl.
  - intros [= ->]. split; [left; reflexivity | exact Ha].
  - intros Hh. destruct (IH Hh) as [Hin Hp].
    split; [right; exact Hin | exact Hp].
Qed.

(** X10.  A path returned by resolveCommandPath is one of the lines the
    locate utility wrote, with the white space around it removed: it is not
    empty, has no white space at either end and holds no line feed. *)
Theorem X10_resolveCommandPath_is_a_trimmed_line (env : Env) (cmd : string)
    (log : list SysCall) (p : string) :
  fst (resolveCommandPath env cmd log) = Some p ->
  p <> "" ∧ Js.trim p = p
  ∧ Js.exists_char (Ascii.eqb Js.LF) p = false
  ∧ ∃ out line,
      execFileSync env log (locate_utility env) [cmd] = Some out
      ∧ In line (Js.split_lines out) ∧ p = Js.trim line.
Proof.
  unfold resolveCommandPath, bind, ret, sys_execFileSync, locate_utility. simpl.
  destruct (execFileSync env log _ [cmd]) as [out|]; [|discriminate].
  intros H. apply head_filter_elem in H as [Hin Hp].
  apply in_map_iff in Hin as (line & <- & Hline).
  split; [apply truthy_iff; exact Hp|].
  split; [apply trim_idem|].
  split.
  - destruct (Js.exists_char (Ascii.eqb Js.LF) (Js.trim line)) eqn:Hlf;
      [|reflexivity].
    unfold Js.trim in Hlf.
    apply exists_char_trimEnd, exists_char_trimStart in Hlf.
    rewrite (split_lines_acc_no_LF out [] line eq_refl Hline) in Hlf.
    discriminate.
  - exists out, line. repeat split. exact Hline.
Qed.

Lemma X10_witness :
  fst (resolveCommandPath env_slow "x" []) = Some "/usr/local/bin/x"
  ∧ Js.trim "/usr/local/bin/x" = "/usr/local/bin/x".
Proof.
  split; [reflexivity|].
  destruct (X10_resolveCommandPath_is_a_trimmed_line env_slow "x" []
              "/usr/local/bin/x" eq_refl) as (_ & H & _).
  exact H.
Defined.

(** ** The system calls of a check *)

Lemma probe_calls_app (env : Env) (n1 n2 : list string) (c1 c2 : list SysCall) :
  probe_calls env n1 c1 -> probe_calls env n2 c2 ->
  probe_calls env (n1 ++ n2)%list (c1 ++ c2)%list.
Proof.
  intros H1 H2. induction H1 as [|cmd file argv names rest Hf _ IH]; simpl.
  - exact H2.
  - constructor; assumption.
Qed.

Lemma probe_calls_length (env : Env) (names : list string) (news : list SysCall) :
  probe_calls env names news -> length news = (2 * length names)%nat.
Proof. intros H. induction H; simpl; lia. Qed.

Lemma resolveCommandPath_calls (env : Env) (cmd : string) (log : list SysCall) :
  snd (resolveCommandPath env cmd log)
  = (log ++ [ExecFileSync (locate_utility env) [cmd]])%list.
Proof. reflexivity. Qed.

Lemma spawn_child_calls (env : Env) (rp : option string) (cmd : string)
    (argv : list string) (t : Z) (log : list SysCall) :
  ∃ file argv',
    snd (spawn_child env rp cmd argv t log)
    = (log ++ [SpawnChild file argv'])%list
    ∧ (win32 env = false -> file = cmd).
Proof.
  unfold spawn_child.
  destruct (win32 env && _) eqn:Hcmd.
  - eexists _, _. split; [reflexivity|].
    intros Hw. rewrite Hw in Hcmd. discriminate.
  - eexists _, _. split; [reflexivity|]. reflexivity.
Qed.

Lemma runCommand_calls (env : Env) (cmd : string) (argv : list string) (t : Z)
    (log : list SysCall) :
  ∃ news, snd (runCommand env cmd argv t log) = (log ++ news)%list
          ∧ probe_calls env [cmd] news.
Proof.
  rewrite runCommand_unfold. cbn [snd]. rewrite resolveCommandPath_calls.
  destruct (spawn_child_calls env (fst (resolveCommandPath env cmd log)) cmd
              argv t (log ++ [ExecFileSync (locate_utility env) [cmd]])%list)
    as (file & argv' & Heq & Hf).
  rewrite Heq. eexists. split; [rewrite <- app_assoc; reflexivity|].
  constructor; [exact Hf | constructor].
Qed.

Lemma runCommandViaShell_calls (env : Env) (cmd : option string)
    (argv : list string) (t : Z) (log : list SysCall) :
  ∃ news, snd (runCommandViaShell env cmd argv t log) = (log ++ news)%list
          ∧ probe_calls env [login_shell env] news.
Proof.
  rewrite runCommandViaShell_unfold. simpl. apply runCommand_calls.
Qed.

Lemma tryCommands_loop_calls (env : Env) (argv : list string) (t : Z)
    (fallback : Probe CommandResult) (cmds : list string) :
  ∀ log,
    (∃ k news, (0 < k <= length cmds)%nat
       ∧ snd (tryCommands_loop env cmds argv t fallback log) = (log ++ news)%list
       ∧ probe_calls env (take k cmds) news)
    ∨ (∃ news,
         snd (tryCommands_loop env cmds argv t fallback log)
         = snd (fallback (log ++ news)%list)
         ∧ probe_calls env cmds news).
Proof.
  induction cmds as [|cmd rest IH]; intros log.
  - right. exists []. rewrite app_nil_r. split; [reflexivity | constructor].
  - simpl. unfold bind, ret.
    destruct (runCommand_calls env cmd argv t log) as (n1 & Hlog & Hn1).
    destruct (runCommand env cmd argv t log) as [r log1]. simpl in Hlog. subst log1.
    assert (Hstop : ∃ k news, (0 < k <= length (cmd :: rest))%nat
              ∧ (log ++ n1)%list = (log ++ news)%list
              ∧ probe_calls env (take k (cmd :: rest)) news).
    { exists 1%nat, n1. split; [simpl; lia|]. split; [reflexivity|].
      simpl. rewrite take_0. exact Hn1. }
    destruct (success r); [left; exact Hstop|].
    destruct (error_other_than_ENOENT r); [left; exact Hstop|].
    destruct (IH (log ++ n1)%list) as [(k & n2 & Hk & Heq & Hn2) | (n2 & Heq & Hn2)].
    + left. exists (S k), (n1 ++ n2)%list. split; [simpl; lia|].
      split; [rewrite Heq, app_assoc; reflexivity|].
      apply (probe_calls_app env [cmd] (take k rest) n1 n2 Hn1 Hn2).
    + right. exists (n1 ++ n2)%list. split; [rewrite Heq, app_assoc; reflexivity|].
      apply (probe_calls_app env [cmd] rest n1 n2 Hn1 Hn2).
Qed.

(** X11.  A check calls the system in pairs, the locate utility for a name
    and then one spawn, on a host other than win32 the spawn of that very
    name.  The names are the first k candidates of the definition, in list
    order, for some k of at least one, or all the candidates followed by the
    login shell: at least one child is spawned and at most one more than
    there are candidates. *)
Theorem X11_check_system_calls (env : Env) (def : CliDefinition) (t : Z)
    (log : list SysCall) :
  ∃ names news,
    snd (tryCommands env def t log) = (log ++ news)%list
    ∧ probe_calls env names news
    ∧ (names = (commands def ++ [login_shell env])%list
       ∨ ∃ k, (0 < k <= length (commands def))%nat
              ∧ names = take k (commands def))
    ∧ length news = (2 * length names)%nat
    ∧ (1 <= length names <= length (commands def) + 1)%nat.
Proof.
  unfold tryCommands.
  set (fb := runCommandViaShell env (last (commands def)) (args def) t).
  destruct (tryCommands_loop_calls env (args def) t fb (commands def) log)
    as [(k & news & Hk & Heq & Hcalls) | (n1 & Heq & Hcalls)].
  - exists (take k (commands def)), news.
    split; [exact Heq|]. split; [exact Hcalls|].
    split; [right; exists k; split; [exact Hk | reflexivity]|].
    split; [apply (probe_calls_length env _ _ Hcalls)|].
    rewrite length_take. lia.
  - destruct (runCommandViaShell_calls env (last (commands def)) (args def) t
                (log ++ n1)%list) as (n2 & Hsh & Hn2).
    exists (commands def ++ [login_shell env])%list, (n1 ++ n2)%list.
    split; [rewrite Heq; unfold fb; rewrite Hsh, app_assoc; reflexivity|].
    pose proof (probe_calls_app env _ _ _ _ Hcalls Hn2) as Hall.
    split; [exact Hall|]. split; [left; reflexivity|].
    split; [apply (probe_calls_length env _ _ Hall)|].
    rewrite length_app. simpl. lia.
Qed.

(** ** Command Results of the cascade *)

Lemma extractVersion_token (s v : string) :
  extractVersion s = Some v -> is_version_token v.
Proof.
  rewrite extractVersion_regex. intros H.
  destruct (regex_match_first s v H) as (n & [Htok _] & _). exact Htok.
Qed.

Lemma or_else_Some (a b : option string) (v : string) :
  or_else a b = Some v -> a = Some v ∨ b = Some v.
Proof. unfold or_else. destruct (Js.truthy_opt a); auto. Qed.

Lemma settle_consistent (cmd : string) (rp : option string) (t : Z)
    (o : ProcOutcome) :
  probe_consistent t (settle cmd rp t o) ∧ command (settle cmd rp t o) = Some cmd.
Proof.
  split; [|destruct o; reflexivity].
  unfold probe_consistent.
  destruct o as [e | e out err to | code out err to]; simpl;
    (split; [|split; [|split; [|split]]]).
  - discriminate.
  - discriminate.
  - eexists. reflexivity.
  - reflexivity.
  - discriminate.
  - discriminate.
  - intros _. split; [reflexivity | eexists; reflexivity].
  - eexists. reflexivity.
  - reflexivity.
  - discriminate.
  - intros H. apply andb_true_iff in H as [Hto Hcode].
    apply negb_true_iff in Hto. subst to.
    apply bool_decide_eq_true in Hcode. auto.
  - intros [= ->]. split; [reflexivity | eexists; reflexivity].
  - eexists. reflexivity.
  - reflexivity.
  - intros v Hv. apply or_else_Some in Hv as [Hv|Hv];
      apply extractVersion_token in Hv; exact Hv.
Qed.

Lemma runCommand_consistent (env : Env) (cmd : string) (argv : list string)
    (t : Z) (log : list SysCall) :
  probe_consistent t (fst (runCommand env cmd argv t log))
  ∧ command (fst (runCommand env cmd argv t log)) = Some cmd.
Proof. rewrite runCommand_unfold. simpl. apply settle_consistent. Qed.

Lemma runCommandViaShell_consistent (env : Env) (cmd : option string)
    (argv : list string) (t : Z) (log : list SysCall) :
  probe_consistent t (fst (runCommandViaShell env cmd argv t log))
  ∧ command (fst (runCommandViaShell env cmd argv t log)) = cmd.
Proof.
  rewrite runCommandViaShell_unfold. simpl.
  destruct (runCommand_consistent env (login_shell env)
              (shell_argv env cmd argv) t log)
    as [(Hs & Ht & Hd & Hms & Hv) _].
  destruct (bool_decide _); simpl; (split; [|reflexivity]);
    unfold probe_consistent; simpl;
    (split; [|split; [|split; [|split]]]); try assumption.
  - discriminate.
  - intros _. split; [reflexivity | eexists; reflexivity].
Qed.

Lemma tryCommands_loop_consistent (env : Env) (argv : list string) (t : Z)
    (fallback : Probe CommandResult) (fbcmd : option string)
    (cmds : list string) :
  (∀ log, probe_consistent t (fst (fallback log))
          ∧ command (fst (fallback log)) = fbcmd) ->
  ∀ log,
    let r := fst (tryCommands_loop env cmds argv t fallback log) in
    probe_consistent t r
    ∧ ((∃ cmd, command r = Some cmd ∧ In cmd cmds) ∨ command r = fbcmd).
Proof.
  intros Hfb. induction cmds as [|cmd rest IH]; intros log; simpl.
  - destruct (Hfb log) as [H1 H2]. split; [exact H1 | right; exact H2].
  - unfold bind, ret.
    destruct (runCommand_consistent env cmd argv t log) as [H1 H2].
    destruct (runCommand env cmd argv t log) as [r log1]. simpl in H1, H2.
    assert (Hhere : probe_consistent t r
              ∧ ((∃ c, command r = Some c ∧ In c (cmd :: rest))
                 ∨ command r = fbcmd)).
    { split; [exact H1|]. left. exists cmd. split; [exact H2 | left; reflexivity]. }
    destruct (success r); [exact Hhere|].
    destruct (error_other_than_ENOENT r); [exact Hhere|].
    destruct (IH log1) as [H3 [(c & Hc & Hin) | H4]].
    + split; [exact H3|]. left. exists c. split; [exact Hc | right; exact Hin].
    + split; [exact H3 | right; exact H4].
Qed.

(** X12.  Every Command Result a check hands to the classifier is
    consistent: success comes with exit code 0, no error and timedOut
    false; timedOut true comes with success false and an attached error;
    timedOut is always set and timeoutMs is the timeout of the check; a
    version, when there is one, is a version token; and the command is one
    of the candidates, or the last candidate of the list when the result is
    the shell fallback's. *)
Theorem X12_cascade_result_consistent (env : Env) (def : CliDefinition)
    (t : Z) (log : list SysCall) :
  result_consistent def t (fst (tryCommands env def t log)).
Proof.
  unfold tryCommands, result_consistent.
  destruct (tryCommands_loop_consistent env (args def) t
              (runCommandViaShell env (last (commands def)) (args def) t)
              (last (commands def)) (commands def)
              (fun l => runCommandViaShell_consistent env _ _ t l) log)
    as [(H1 & H2 & H3 & H4 & H5) H6].
  split; [exact H1|]. split; [exact H2|]. split; [exact H3|].
  split; [exact H4|]. split; [exact H5 | exact H6].
Qed.

(** ** Versions *)

Section VersionTokens.

Local Arguments String.append !_ _ / : simpl nomatch.

Lemma sapp_nil_r (a : string) : a +:+ "" = a.
Proof. induction a as [|x a IH]; simpl; [reflexivity | rewrite IH; reflexivity]. Qed.

Lemma sapp_full (w post v : string) :
  v = w +:+ post -> (String.length v <= String.length w)%nat -> w = v.
Proof.
  intros -> Hlen. rewrite slength_app in Hlen.
  destruct post; [rewrite sapp_nil_r; reflexivity | simpl in Hlen; lia].
Qed.

Lemma extractVersion_of_token (v : string) :
  is_version_token v -> extractVersion v = Some v.
Proof.
  intros Htok. rewrite extractVersion_regex.
  destruct (match_here_complete v "" Htok) as (w & Hw & Hlen).
  rewrite sapp_nil_r in Hw.
  destruct (match_here_sound v w Hw) as [_ (post & Hpost)].
  rewrite (sapp_full w post v Hpost Hlen) in Hw.
  destruct v; cbn [regex_match_version]; rewrite Hw; reflexivity.
Qed.

End VersionTokens.

(** X13.  Whatever extractVersion returns is a version token, two or three
    runs of digits joined by dots, and extracting from a version token
    returns the token itself: extracting twice changes nothing. *)
Theorem X13_extractVersion_tokens :
  (∀ s v, extractVersion s = Some v ->
          is_version_token v ∧ extractVersion v = Some v)
  ∧ (∀ v, is_version_token v -> extractVersion v = Some v).
Proof.
  split; [|exact extractVersion_of_token].
  intros s v H. pose proof (extractVersion_token s v H) as Htok.
  split; [exact Htok | apply extractVersion_of_token; exact Htok].
Qed.

(** ** What the cascade passes over, and what ends it *)

Lemma CLI_DEFINITIONS_statusResolver (providers : list ProviderDefinition)
    (def : CliDefinition) :
  In def (CLI_DEFINITIONS providers) -> statusResolver def = None.
Proof.
  unfold CLI_DEFINITIONS. intros H.
  apply in_map_iff in H as (provider & <- & _). reflexivity.
Qed.

Lemma isActualError_generic (env : Env) (def : CliDefinition) (t : Z)
    (log : list SysCall) :
  statusResolver def = None ->
  let r := fst (tryCommands env def t log) in
  isActualError (resolveStatus def r) r = false.
Proof.
  intros Hd r. unfold isActualError.
  destruct (resolvedPath r) as [p|] eqn:Hp.
  - assert (Hc : resolveStatus def r = connected).
    { apply resolveStatus_path; [exact Hd|]. rewrite Hp.
      apply truthy_opt_iff. exists p. split; [reflexivity|].
      intros ->. apply (tryCommands_wf env def t log). exact Hp. }
    rewrite Hc. reflexivity.
  - rewrite (bool_decide_eq_false_2 (None <> None)); [apply andb_false_r|].
    intros H. apply H. reflexivity.
Qed.

(** X14.  For the definitions the service builds from the registry, the
    condition isActualError of checkProvider never holds, whatever the
    operating system answers: a result with a resolved path is classified
    as connected, so the warning provider:error is never logged. *)
Theorem X14_provider_error_warning_unreachable
    (providers : list ProviderDefinition) (env : Env) (def : CliDefinition)
    (t : Z) (log : list SysCall) :
  In def (CLI_DEFINITIONS providers) ->
  let r := fst (tryCommands env def t log) in
  isActualError (resolveStatus def r) r = false.
Proof.
  intros Hin. apply isActualError_generic.
  apply (CLI_DEFINITIONS_statusResolver providers). exact Hin.
Qed.

Lemma X14_witness :
  let providers := [ {| p_id := "foo"; p_name := "Foo";
                        p_commands := Some ["foo"]; p_versionArgs := None;
                        p_docUrl := None; p_installCommand := None;
                        p_detectable := Some true |} ] in
  let r := fst (tryCommands env_absent def_foo 3000 []) in
  In def_foo (CLI_DEFINITIONS providers)
  ∧ resolveStatus def_foo r = error
  ∧ isActualError (resolveStatus def_foo r) r = false.
Proof.
  intros providers r.
  assert (Hin : In def_foo (CLI_DEFINITIONS providers)) by (left; reflexivity).
  split; [exact Hin|]. split; [reflexivity|].
  apply (X14_provider_error_warning_unreachable providers env_absent def_foo
           3000 [] Hin).
Defined.

Lemma timed_out_close_result (env : Env) (cmd : string) (argv : list string)
    (t : Z) (log : list SysCall) (code : option Z) (out err : string) :
  probe_outcome env cmd argv t log = CloseEvent code out err true ->
  let r := fst (runCommand env cmd argv t log) in
  success r = false ∧ timedOut r = Some true
  ∧ cr_error r = Some (new_Error "Command timeout")
  ∧ error_other_than_ENOENT r = true.
Proof.
  intros Ho r. subst r. rewrite runCommand_unfold. simpl. rewrite Ho.
  repeat split.
Qed.

(** X15.  A candidate whose process is killed by the timeout ends the
    cascade: its result, timedOut with the error Command timeout, is the
    result of the check, and neither a later candidate nor the shell
    fallback is tried. *)
Theorem X15_timeout_ends_cascade (env : Env) (def : CliDefinition) (t : Z)
    (log : list SysCall) (pre : list string) (cmd : string)
    (post : list string) (rs : list CommandResult) (log1 : list SysCall)
    (code : option Z) (out err : string) :
  commands def = (pre ++ cmd :: post)%list ->
  probe_each env pre (args def) t log = (rs, log1) ->
  Forall passed_over rs ->
  probe_outcome env cmd (args def) t log1 = CloseEvent code out err true ->
  tryCommands env def t log = runCommand env cmd (args def) t log1
  ∧ timedOut (fst (tryCommands env def t log)) = Some true
  ∧ cr_error (fst (tryCommands env def t log))
    = Some (new_Error "Command timeout").
Proof.
  intros Hsplit Hp Hall Ho.
  destruct (timed_out_close_result env cmd (args def) t log1 code out err Ho)
    as (_ & Hto & Herr & Hstop).
  assert (Heq : tryCommands env def t log = runCommand env cmd (args def) t log1).
  { unfold tryCommands.
    generalize (runCommandViaShell env (last (commands def)) (args def) t).
    intros fb. rewrite Hsplit.
    rewrite (tryCommands_loop_app env (args def) t fb pre (cmd :: post)
               log rs log1 Hp Hall).
    apply tryCommands_loop_returns. right. exact Hstop. }
  rewrite Heq. split; [reflexivity|]. split; [exact Hto | exact Herr].
Qed.

Lemma X15_witness :
  tryCommands env_slow def_x 3000 []
  = runCommand env_slow "x" ["--version"] 3000 []
  ∧ calls (tryCommands env_slow def_x 3000)
    = [ExecFileSync "which" ["x"]; SpawnChild "x" ["--version"]].
Proof.
  split; [|reflexivity].
  destruct (X15_timeout_ends_cascade env_slow def_x 3000 [] [] "x" [] [] []
              None "" "" eq_refl eq_refl ltac:(constructor) eq_refl)
    as [H _].
  exact H.
Defined.

Lemma exit_nonzero_result (env : Env) (cmd : string) (argv : list string)
    (t : Z) (log : list SysCall) (code : option Z) (out err : string) :
  probe_outcome env cmd argv t log = CloseEvent code out err false ->
  code <> Some 0 ->
  let r := fst (runCommand env cmd argv t log) in
  success r = false ∧ cr_error r = None ∧ stdout r = out ∧ stderr r = err
  ∧ status r = code.
Proof.
  intros Ho Hc r. subst r. rewrite runCommand_unfold. simpl. rewrite Ho. simpl.
  rewrite (bool_decide_eq_false_2 _ Hc). repeat split.
Qed.

(** X16.  A candidate that exits by itself with a code other than 0 is
    passed over, whatever it wrote: no error is attached to its result, so
    the loop goes on.  When every candidate fails without an attached error
    the result of the check is that of the shell fallback on the last
    candidate. *)
Theorem X16_nonzero_exit_is_passed_over (env : Env) (def : CliDefinition)
    (t : Z) (log : list SysCall) :
  (∀ cmd log' code out err,
     probe_outcome env cmd (args def) t log' = CloseEvent code out err false ->
     code <> Some 0 ->
     passed_over (fst (runCommand env cmd (args def) t log'))
     ∧ stdout (fst (runCommand env cmd (args def) t log')) = out)
  ∧ (∀ rs log1,
       probe_each env (commands def) (args def) t log = (rs, log1) ->
       Forall (fun r => success r = false ∧ cr_error r = None) rs ->
       tryCommands env def t log
       = runCommandViaShell env (last (commands def)) (args def) t log1).
Proof.
  split.
  - intros cmd log' code out err Ho Hc.
    destruct (exit_nonzero_result env cmd (args def) t log' code out err Ho Hc)
      as (Hs & He & Hout & _).
    split; [|exact Hout]. split; [exact Hs|].
    intros e Hsome. rewrite He in Hsome. discriminate.
  - intros rs log1 Hp Hall. unfold tryCommands.
    apply (tryCommands_loop_falls_through env (args def) t _ _ log rs log1 Hp).
    eapply Forall_impl; [exact Hall|].
    intros r [Hs He]. split; [exact Hs|].
    intros e Hsome. rewrite He in Hsome. discriminate.
Qed.

Lemma X16_witness :
  let r := run (tryCommands env_exit1 def_x 3000) in
  stdout (run (runCommand env_exit1 "x" ["--version"] 3000)) = "x 1.0.0"
  ∧ tryCommands env_exit1 def_x 3000 []
    = runCommandViaShell env_exit1 (Some "x") ["--version"] 3000
        [ExecFileSync "which" ["x"]; SpawnChild "x" ["--version"]]
  ∧ version r = None ∧ resolveStatus def_x r = error.
Proof.
  intros r. subst r.
  destruct (X16_nonzero_exit_is_passed_over env_exit1 def_x 3000 [])
    as [H1 H2].
  split.
  - destruct (H1 "x" [] (Some 1) "x 1.0.0" "" eq_refl ltac:(discriminate))
      as [_ Hout]. exact Hout.
  - split; [|split; reflexivity].
    apply (H2 [run (runCommand env_exit1 "x" ["--version"] 3000)]
              [ExecFileSync "which" ["x"]; SpawnChild "x" ["--version"]]
              eq_refl).
    constructor; [|constructor]. split; reflexivity.
Defined.

(** ** States the service can reach *)

Lemma find_id (defs : list CliDefinition) (p : string) (def : CliDefinition) :
  find (fun d => bool_decide (id d = p)) defs = Some def ->
  In def defs ∧ id def = p.
Proof.
  intros H. apply find_some in H as [Hin Hid].
  split; [exact Hin | apply bool_decide_eq_true in Hid; exact Hid].
Qed.


Section Reachable.

Variable defs : list CliDefinition.

Lemma invariant_loaded (store : gmap string ProviderStatus) :
  service_invariant defs (loaded store).
Proof.
  unfold service_invariant. simpl.
  split; [intros p k H; rewrite lookup_empty in H; discriminate|].
  split; [intros k p ms H; rewrite lookup_empty in H; discriminate|].
  split; [intros p H; apply not_elem_of_empty in H; contradiction|].
  intros n c H. rewrite lookup_empty in H. discriminate.
Qed.


Lemma clearTimeoutRetry_part (p : string) (s : Service) :
  service_part defs s -> service_part defs (clearTimeoutRetry p s).
Proof.
  intros (Hh & Ha & Hp). unfold clearTimeoutRetry.
  destruct (timeoutRetryTimers s !! p) as [k0|] eqn:Hk0;
    unfold service_part; simpl.
  - split; [|split].
    + intros q k Hq. apply lookup_delete_Some in Hq as [Hne Hq].
      destruct (Hh q k Hq) as [ms Hms]. exists ms.
      rewrite lookup_delete_ne; [exact Hms|].
      intros <-. destruct (Hh p k0 Hk0) as [ms' Hms']. congruence.
    + intros k q ms Hk. apply lookup_delete_Some in Hk as [_ Hk].
      exact (Ha k q ms Hk).
    + intros q Hq. apply elem_of_difference in Hq as [Hq _]. exact (Hp q Hq).
  - split; [exact Hh|]. split; [exact Ha|].
    intros q Hq. apply elem_of_difference in Hq as [Hq _]. exact (Hp q Hq).
Qed.

Lemma checkProvider_begin_part (p : string) (reason : Reason)
    (opts : option CheckOpts) (s : Service) :
  service_part defs s -> service_part defs (snd (checkProvider_begin defs p reason opts s)).
Proof.
  intros H. unfold checkProvider_begin.
  destruct (find _ defs); simpl; [|exact H].
  destruct (_ && _); [apply clearTimeoutRetry_part|]; exact H.
Qed.

Lemma checkProvider_begin_check (p : string) (reason : Reason)
    (opts : option CheckOpts) (s : Service) (c : Check) :
  fst (checkProvider_begin defs p reason opts s) = Some c ->
  find (fun d => bool_decide (id d = chk_providerId c)) defs = Some (chk_def c)
  ∧ id (chk_def c) = chk_providerId c
  ∧ chk_providerId c = p ∧ chk_reason c = reason ∧ chk_opts c = opts
  ∧ chk_timeoutMs c = default DEFAULT_TIMEOUT_MS (opts ≫= opt_timeoutMs)
  ∧ chk_finally c = false.
Proof.
  unfold checkProvider_begin.
  destruct (find _ defs) as [def|] eqn:Hf; simpl; [|discriminate].
  intros [= <-]. simpl. split; [exact Hf|].
  split; [apply (find_id defs p def Hf)|]. repeat split.
Qed.

Lemma retry_finally_part (p : string) (s : Service) :
  service_part defs s -> service_part defs (retry_finally p s).
Proof.
  intros (Hh & Ha & Hp). unfold retry_finally, service_part. simpl.
  split; [exact Hh|]. split; [exact Ha|].
  simpl. intros q Hq. apply elem_of_difference in Hq as [Hq _]. exact (Hp q Hq).
Qed.

Lemma checkProvider_resume_part (c : Check) (r : CommandResult) (now : Z)
    (windows : list BrowserWindow) (s : Service) :
  handles_fresh s -> known defs (chk_providerId c) ->
  id (chk_def c) = chk_providerId c ->
  service_part defs s -> service_part defs (checkProvider_resume c r now windows s).
Proof.
  intros Hfresh Hknown Hid (Hh & Ha & Hp).
  unfold checkProvider_resume. simpl.
  destruct (_ && _); unfold service_part; simpl.
  - split; [|split].
    + intros p k Hpk. apply lookup_insert_Some in Hpk as [[<- <-] | [Hne Hpk]].
      * eexists. apply lookup_insert_eq.
      * destruct (Hh p k Hpk) as [ms Hms]. exists ms.
        rewrite lookup_insert_ne; [exact Hms|].
        intros <-. pose proof (Hfresh _ _ Hms). lia.
    + intros k p ms Hk. apply lookup_insert_Some in Hk as [[<- [= <- <-]] | [_ Hk]].
      * split; [lia | exact Hknown].
      * exact (Ha k p ms Hk).
    + intros p Hin. apply elem_of_union in Hin as [Hin | Hin].
      * exact (Hp p Hin).
      * apply elem_of_singleton in Hin. subst p. exact Hknown.
  - split; [exact Hh|]. split; [exact Ha | exact Hp].
Qed.

Lemma suspend_invariant (oc : option Check) (s : Service) (sys : System) :
  service_part defs s ->
  (∀ c, oc = Some c ->
     find (fun d => bool_decide (id d = chk_providerId c)) defs = Some (chk_def c)
     ∧ id (chk_def c) = chk_providerId c
     ∧ (chk_finally c = true ->
        chk_reason c = timeout_retry
        ∧ chk_opts c ≫= opt_allowRetry = Some false
        ∧ 12000 <= chk_timeoutMs c)) ->
  service_invariant defs sys ->
  service_invariant defs (suspend oc s sys).
Proof.
  intros (Hh & Ha & Hp) Hc (_ & _ & _ & Hin).
  unfold service_invariant, suspend.
  destruct oc as [c|]; simpl.
  - split; [exact Hh|]. split; [exact Ha|]. split; [exact Hp|].
    intros n c' Hn. apply lookup_insert_Some in Hn as [[<- <-] | [_ Hn]].
    + destruct (Hc c eq_refl) as (H1 & H2 & H3). split; [lia|]. auto.
    + destruct (Hin n c' Hn) as (H0 & H1). split; [lia | exact H1].
  - split; [exact Hh|]. split; [exact Ha|]. split; [exact Hp | exact Hin].
Qed.

Lemma invariant_service_part (sys : System) :
  service_invariant defs sys -> service_part defs (service sys).
Proof.
  intros (Hh & Ha & Hp & _). exact (conj Hh (conj Ha Hp)).
Qed.

Lemma step_invariant (sys : System) (ev : Event) :
  handles_fresh (service sys) ->
  service_invariant defs sys -> service_invariant defs (step defs sys ev).
Proof.
  intros Hfresh Hinv. pose proof (invariant_service_part sys Hinv) as Hpart.
  destruct ev as [p reason opts | n env now windows | k]; simpl.
  - pose proof (checkProvider_begin_part p reason opts _ Hpart) as Hpart'.
    pose proof (checkProvider_begin_check p reason opts (service sys)) as Hchk.
    destruct (checkProvider_begin defs p reason opts (service sys)) as [oc s].
    simpl in *. apply suspend_invariant; [exact Hpart' | | exact Hinv].
    intros c ->. destruct (Hchk c eq_refl) as (H1 & H2 & _ & _ & _ & _ & H7).
    split; [exact H1|]. split; [exact H2|]. rewrite H7. discriminate.
  - destruct (inflight sys !! n) as [c|] eqn:Hn; [|exact Hinv].
    destruct Hinv as (_ & _ & _ & Hin).
    destruct (Hin n c Hn) as (_ & Hfind & Hid & _).
    assert (Hknown : known defs (chk_providerId c)) by (eexists; exact Hfind).
    pose proof (checkProvider_resume_part c
                  (run (tryCommands env (chk_def c) (chk_timeoutMs c)))
                  now windows _ Hfresh Hknown Hid Hpart) as Hpart'.
    assert (Hpart'' : service_part defs
              (if chk_finally c
               then retry_finally (chk_providerId c)
                      (checkProvider_resume c
                         (run (tryCommands env (chk_def c) (chk_timeoutMs c)))
                         now windows (service sys))
               else checkProvider_resume c
                      (run (tryCommands env (chk_def c) (chk_timeoutMs c)))
                      now windows (service sys))).
    { destruct (chk_finally c); [apply retry_finally_part|]; exact Hpart'. }
    destruct Hpart'' as (Hh & Ha & Hp).
    unfold service_invariant. simpl.
    split; [exact Hh|]. split; [exact Ha|]. split; [exact Hp|].
    intros m c' Hm. apply lookup_delete_Some in Hm as [_ Hm]. exact (Hin m c' Hm).
  - unfold retry_callback.
    destruct (armed (service sys) !! k) as [[p ms]|] eqn:Hk;
      [|apply (suspend_invariant None); [exact Hpart | discriminate | exact Hinv]].
    destruct Hpart as (Hh & Ha & Hp).
    destruct (Ha k p ms Hk) as [Hms Hknown].
    set (s1 := {| timeoutRetryPending := timeoutRetryPending (service sys);
                  timeoutRetryTimers := delete p (timeoutRetryTimers (service sys));
                  armed := delete k (armed (service sys));
                  timerSeq := timerSeq (service sys);
                  providerStatusCache := providerStatusCache (service sys);
                  sent := sent (service sys) |}).
    assert (Hpart1 : service_part defs s1).
    { unfold service_part, s1. simpl. split; [|split].
      - intros q j Hq. apply lookup_delete_Some in Hq as [Hne Hq].
        destruct (Hh q j Hq) as [ms' Hms']. exists ms'.
        rewrite lookup_delete_ne; [exact Hms'|].
        intros <-. congruence.
      - intros j q ms' Hj. apply lookup_delete_Some in Hj as [_ Hj].
        exact (Ha j q ms' Hj).
      - exact Hp. }
    pose proof (checkProvider_begin_part p timeout_retry
                  (Some {| opt_timeoutMs := Some ms; opt_allowRetry := Some false |})
                  s1 Hpart1) as Hpart2.
    pose proof (checkProvider_begin_check p timeout_retry
                  (Some {| opt_timeoutMs := Some ms; opt_allowRetry := Some false |})
                  s1) as Hchk.
    destruct (checkProvider_begin defs p timeout_retry _ s1) as [[c|] s2];
      cbv beta iota; cbn [fst snd] in Hpart2, Hchk.
    + destruct (Hchk c eq_refl) as (H1 & H2 & H3 & H4 & H5 & H6 & _).
      apply suspend_invariant; [exact Hpart2 | | exact Hinv].
      intros c' [= <-]. simpl. split; [exact H1|]. split; [exact H2|].
      intros _. rewrite H4, H5, H6. simpl. auto.
    + apply (suspend_invariant None);
        [apply retry_finally_part; exact Hpart2 | discriminate | exact Hinv].
Qed.


Lemma run_invariant (evs : list Event) (sys : System) :
  handles_fresh (service sys) -> service_invariant defs sys ->
  service_invariant defs (fold_left (step defs) evs sys).
Proof.
  revert sys. induction evs as [|ev evs IH]; intros sys Hfresh Hinv; simpl.
  - exact Hinv.
  - apply IH; [apply step_fresh | apply step_invariant]; assumption.
Qed.

Lemma loaded_fresh (store : gmap string ProviderStatus) :
  handles_fresh (service (loaded store)).
Proof. intros k v H. simpl in H. rewrite lookup_empty in H. discriminate. Qed.

End Reachable.

(** X17.  In every state the service can reach, whatever the persisted
    store held when it was loaded: the timer handle the service remembers
    for a provider names an armed timer of that provider; every armed retry
    is for a provider that has a definition and carries a timeout of at
    least 12000 ms; the pending flags are ids of definitions; every
    suspended check probes the definition found for its id, and the check
    made by the retry timer runs with reason timeout-retry,
    allowRetry=false and a timeout of at least 12000 ms.  The states
    reached from the empty store are those of [exec]. *)
Theorem X17_reachable_states (defs : list CliDefinition)
    (store : gmap string ProviderStatus) (evs : list Event) :
  service_invariant defs (exec_loaded defs store evs)
  ∧ exec_loaded defs ∅ evs = exec defs evs.
Proof.
  split; [|reflexivity].
  apply run_invariant; [apply loaded_fresh | apply invariant_loaded].
Qed.

(** ** Only a completed check publishes *)

Lemma clearTimeoutRetry_store (p : string) (s : Service) :
  providerStatusCache (clearTimeoutRetry p s) = providerStatusCache s
  ∧ sent (clearTimeoutRetry p s) = sent s.
Proof.
  unfold clearTimeoutRetry.
  destruct (timeoutRetryTimers s !! p); split; reflexivity.
Qed.

Lemma checkProvider_begin_store (defs : list CliDefinition) (p : string)
    (reason : Reason) (opts : option CheckOpts) (s : Service) :
  providerStatusCache (snd (checkProvider_begin defs p reason opts s))
  = providerStatusCache s
  ∧ sent (snd (checkProvider_begin defs p reason opts s)) = sent s.
Proof.
  unfold checkProvider_begin.
  destruct (find _ defs); simpl; [|split; reflexivity].
  destruct (_ && _); [apply clearTimeoutRetry_store | split; reflexivity].
Qed.

Lemma suspend_service (oc : option Check) (s : Service) (sys : System) :
  service (suspend oc s sys) = s.
Proof. destruct oc; reflexivity. Qed.

(** X18.  Nothing but the completion of a suspended check writes to the
    status store or sends to a window: a checkProvider call and the expiry
    of a retry timer leave both as they are, and a completion reported for
    a check that is not suspended changes nothing at all. *)
Theorem X18_only_completions_publish (defs : list CliDefinition)
    (sys : System) (ev : Event) :
  match ev with
  | Settle n env now windows =>
      inflight sys !! n = None -> step defs sys ev = sys
  | _ =>
      providerStatusCache (service (step defs sys ev))
      = providerStatusCache (service sys)
      ∧ sent (service (step defs sys ev)) = sent (service sys)
  end.
Proof.
  destruct ev as [p reason opts | n env now windows | k]; simpl.
  - pose proof (checkProvider_begin_store defs p reason opts (service sys)) as H.
    destruct (checkProvider_begin defs p reason opts (service sys)) as [oc s].
    rewrite suspend_service. exact H.
  - intros ->. reflexivity.
  - unfold retry_callback.
    destruct (armed (service sys) !! k) as [[p ms]|];
      [|rewrite suspend_service; split; reflexivity].
    match goal with
    | |- context [checkProvider_begin defs p timeout_retry ?o ?s1] =>
        pose proof (checkProvider_begin_store defs p timeout_retry o s1) as H;
        destruct (checkProvider_begin defs p timeout_retry o s1) as [[c|] s2]
    end; cbv beta iota; rewrite suspend_service; exact H.
Qed.

(** ** Checking every provider at once *)

Section Batch.

Variable defs : list CliDefinition.




End Batch.



(** ** Checks of one provider that do not overlap *)

Section Orderly.

Variable defs : list CliDefinition.

(** A turn that changes the bookkeeping of provider [p] only keeps the
    invariant when it keeps it for [p]. *)
Lemma one_retry_update (sys sys' : System) (p : string) :
  one_retry_invariant sys ->
  handles_fresh (service sys') ->
  (∀ k q ms, q <> p -> armed (service sys') !! k = Some (q, ms) ->
             armed (service sys) !! k = Some (q, ms)) ->
  (∀ q, q <> p ->
        timeoutRetryTimers (service sys') !! q
        = timeoutRetryTimers (service sys) !! q) ->
  (∀ q, q <> p ->
        (q ∈ timeoutRetryPending (service sys')
         <-> q ∈ timeoutRetryPending (service sys))) ->
  (∀ n c, inflight sys' !! n = Some c -> chk_providerId c <> p ->
          inflight sys !! n = Some c) ->
  (checkSeq sys <= checkSeq sys')%nat ->
  (∀ n1 n2 c1 c2,
     inflight sys' !! n1 = Some c1 -> inflight sys' !! n2 = Some c2 ->
     chk_providerId c1 = p -> chk_providerId c2 = p -> n1 = n2) ->
  (∀ k ms, armed (service sys') !! k = Some (p, ms) ->
     timeoutRetryTimers (service sys') !! p = Some k
     ∧ p ∈ timeoutRetryPending (service sys') ∧ ¬ busy p sys') ->
  (∀ n c, inflight sys' !! n = Some c -> chk_providerId c = p ->
     (n < checkSeq sys')%nat
     ∧ (chk_finally c = true ->
        p ∈ timeoutRetryPending (service sys')
        ∧ chk_opts c ≫= opt_allowRetry = Some false)
     ∧ (chk_finally c = false -> p ∉ timeoutRetryPending (service sys'))) ->
  one_retry_invariant sys'.
Proof.
  intros (_ & Ha & Hb & Hd) Hfresh Oarmed Otimers Opending Oinflight Hseq
         Pa Pb Pd.
  unfold one_retry_invariant. cbv zeta.
  split; [exact Hfresh|]. split; [|split].
  - intros n1 n2 c1 c2 H1 H2 Heq.
    destruct (decide (chk_providerId c1 = p)) as [Hp|Hp].
    + apply (Pa n1 n2 c1 c2 H1 H2 Hp). congruence.
    + apply (Ha n1 n2 c1 c2); [apply Oinflight | apply Oinflight |]; congruence.
  - intros k q ms Hk. destruct (decide (q = p)) as [->|Hq]; [exact (Pb k ms Hk)|].
    destruct (Hb k q ms (Oarmed k q ms Hq Hk)) as (Ht & Hp & Hbusy).
    split; [rewrite (Otimers q Hq); exact Ht|].
    split; [apply (Opending q Hq); exact Hp|].
    intros (n & c & Hn & Hc). apply Hbusy. exists n, c.
    split; [apply Oinflight; congruence | exact Hc].
  - intros n c Hn. destruct (decide (chk_providerId c = p)) as [Hp|Hp].
    + rewrite Hp. exact (Pd n c Hn Hp).
    + destruct (Hd n c (Oinflight n c Hn Hp)) as (H1 & H2 & H3).
      split; [lia|]. split.
      * intros Hf. destruct (H2 Hf) as [H4 H5].
        split; [apply (Opending _ Hp); exact H4 | exact H5].
      * intros Hf Hin. apply (H3 Hf). apply (Opending _ Hp). exact Hin.
Qed.

Lemma begin_effect (p : string) (reason : Reason) (opts : option CheckOpts)
    (s : Service) (def : CliDefinition) :
  find (fun d => bool_decide (id d = p)) defs = Some def ->
  reason <> timeout_retry ->
  ∃ c0 s1,
    checkProvider_begin defs p reason opts s = (Some c0, s1)
    ∧ chk_providerId c0 = p ∧ chk_finally c0 = false
    ∧ (∀ k v, armed s1 !! k = Some v -> armed s !! k = Some v)
    ∧ (∀ q, q <> p -> timeoutRetryTimers s1 !! q = timeoutRetryTimers s !! q)
    ∧ (∀ q, q ∈ timeoutRetryPending s1 <-> q ∈ timeoutRetryPending s ∧ q <> p)
    ∧ (∀ k v, armed s1 !! k = Some v -> p ∈ timeoutRetryPending s ->
              timeoutRetryTimers s !! p <> Some k).
Proof.
  intros Hf Hr. unfold checkProvider_begin. rewrite Hf.
  rewrite (bool_decide_eq_true_2 _ Hr). simpl.
  eexists _, _. split; [reflexivity|]. split; [reflexivity|].
  split; [reflexivity|].
  destruct (bool_decide (p ∈ timeoutRetryPending s)) eqn:Hp.
  - unfold clearTimeoutRetry.
    destruct (timeoutRetryTimers s !! p) as [k0|] eqn:Hk0; simpl.
    + split; [intros k v Hk; apply lookup_delete_Some in Hk as [_ Hk]; exact Hk|].
      split; [intros q Hq; apply lookup_delete_ne; congruence|].
      split; [intros q; rewrite elem_of_difference, elem_of_singleton; reflexivity|].
      intros k v Hk _ [= <-]. rewrite lookup_delete_eq in Hk. discriminate.
    + split; [auto|]. split; [auto|].
      split; [intros q; rewrite elem_of_difference, elem_of_singleton; reflexivity|].
      intros k v _ _. discriminate.
  - apply bool_decide_eq_false in Hp.
    split; [auto|]. split; [auto|]. split.
    + intros q. split; [intros Hq; split; [exact Hq | intros ->; contradiction]|].
      intros [Hq _]. exact Hq.
    + intros k v _ Hin. contradiction.
Qed.

Lemma resume_effect (c : Check) (r : CommandResult) (now : Z)
    (windows : list BrowserWindow) (s : Service) :
  let s1 := checkProvider_resume c r now windows s in
  (armed s1 = armed s ∧ timeoutRetryTimers s1 = timeoutRetryTimers s
   ∧ timeoutRetryPending s1 = timeoutRetryPending s)
  ∨ ((chk_providerId c ∉ timeoutRetryPending s)
     ∧ chk_opts c ≫= opt_allowRetry <> Some false
     ∧ (∃ ms, armed s1 = <[timerSeq s := (chk_providerId c, ms)]> (armed s))
     ∧ timeoutRetryTimers s1
       = <[chk_providerId c := timerSeq s]> (timeoutRetryTimers s)
     ∧ timeoutRetryPending s1 = timeoutRetryPending s ∪ {[chk_providerId c]}).
Proof.
  unfold checkProvider_resume. simpl.
  destruct (shouldRetryTimeout r (chk_opts c)) eqn:Hs; simpl;
    [|left; repeat split].
  destruct (bool_decide (chk_providerId c ∈ timeoutRetryPending s)) eqn:Hp;
    simpl; [left; repeat split|].
  right. apply bool_decide_eq_false in Hp. split; [exact Hp|].
  split; [|split; [eexists; reflexivity | split; reflexivity]].
  unfold shouldRetryTimeout in Hs.
  apply andb_true_iff in Hs as [_ Hs]. apply negb_true_iff in Hs.
  apply bool_decide_eq_false in Hs. exact Hs.
Qed.

Lemma not_busy_insert (sys : System) (p q : string) (c0 : Check) (n : nat)
    (s : Service) (m : nat) :
  chk_providerId c0 = p -> q <> p -> ¬ busy q sys ->
  ¬ busy q {| service := s; inflight := <[n := c0]> (inflight sys);
              checkSeq := m |}.
Proof.
  intros Hc Hq Hb (j & c & Hj & Hcq). simpl in Hj.
  apply lookup_insert_Some in Hj as [[_ <-] | [_ Hj]]; [congruence|].
  apply Hb. exists j, c. split; assumption.
Qed.

Lemma step_one_retry (sys : System) (ev : Event) :
  one_retry_invariant sys -> allowed sys ev ->
  one_retry_invariant (step defs sys ev).
Proof.
  intros Hinv Hev.
  assert (Hfresh' : handles_fresh (service (step defs sys ev))).
  { apply step_fresh. destruct Hinv as [H _]. exact H. }
  pose proof Hinv as (Hfresh & Ha & Hb & Hd).
  destruct ev as [p reason opts | n env now windows | k].
  - (* a call *)
    destruct Hev as [Hr Hnb]. simpl in Hfresh' |- *.
    destruct (find (fun d => bool_decide (id d = p)) defs) as [def|] eqn:Hf.
    + destruct (begin_effect p reason opts (service sys) def Hf Hr)
        as (c0 & s1 & Hbegin & Hc0 & Hfin & P1 & P2 & P3 & P4).
      rewrite Hbegin in Hfresh' |- *. simpl in Hfresh' |- *.
      apply (one_retry_update sys _ p Hinv); simpl.
      * exact Hfresh'.
      * intros j q ms _ Hj. exact (P1 j _ Hj).
      * exact P2.
      * intros q Hq. rewrite P3. tauto.
      * intros j c Hj Hc. apply lookup_insert_Some in Hj as [[_ <-] | [_ Hj]];
          [congruence | exact Hj].
      * lia.
      * intros n1 n2 c1 c2 H1 H2 Hp1 Hp2.
        apply lookup_insert_Some in H1 as [[<- _] | [_ H1]];
          [|exfalso; apply Hnb; exists n1, c1; split; assumption].
        apply lookup_insert_Some in H2 as [[<- _] | [_ H2]];
          [reflexivity | exfalso; apply Hnb; exists n2, c2; split; assumption].
      * intros j ms Hj. exfalso.
        destruct (Hb j p ms (P1 j _ Hj)) as (Ht & Hp & _).
        exact (P4 j _ Hj Hp Ht).
      * intros j c Hj Hc. apply lookup_insert_Some in Hj as [[<- <-] | [_ Hj]];
          [|exfalso; apply Hnb; exists j, c; split; assumption].
        split; [lia|]. split; [rewrite Hfin; discriminate|].
        intros _ Hin. apply P3 in Hin as [_ Hne]. apply Hne. reflexivity.
    + unfold checkProvider_begin. rewrite Hf. simpl. exact Hinv.
  - (* a completion *)
    simpl in Hfresh' |- *.
    destruct (inflight sys !! n) as [c|] eqn:Hn; [|exact Hinv].
    set (p := chk_providerId c) in *.
    set (r := run (tryCommands env (chk_def c) (chk_timeoutMs c))) in *.
    destruct (Hd n c Hn) as (_ & Hfin_t & Hfin_f).
    assert (Hbusy : busy p sys) by (exists n, c; split; [exact Hn | reflexivity]).
    assert (Hnone : ∀ j ms, armed (service sys) !! j = Some (p, ms) -> False).
    { intros j ms Hj. destruct (Hb j p ms Hj) as (_ & _ & Hnb). exact (Hnb Hbusy). }
    assert (Hgone : ∀ j c', delete n (inflight sys) !! j = Some c' ->
                            chk_providerId c' = p -> False).
    { intros j c' Hj Hc'. apply lookup_delete_Some in Hj as [Hne Hj].
      apply Hne. apply (Ha n j c c' Hn Hj). fold p. congruence. }
    destruct (resume_effect c r now windows (service sys))
      as [(Earmed & Etimers & Epending)
         | (Hnp & Hallow & [ms Earmed] & Etimers & Epending)];
      fold p in Earmed, Etimers, Epending.
    + (* no timer is armed *)
      apply (one_retry_update sys _ p Hinv); simpl.
      * exact Hfresh'.
      * intros j q ms _ Hj.
        destruct (chk_finally c); simpl in Hj; rewrite Earmed in Hj; exact Hj.
      * intros q _. destruct (chk_finally c); simpl; rewrite Etimers; reflexivity.
      * intros q Hq. destruct (chk_finally c); simpl; rewrite Epending;
          [rewrite elem_of_difference, elem_of_singleton; tauto | tauto].
      * intros j c' Hj _. apply lookup_delete_Some in Hj as [_ Hj]. exact Hj.
      * lia.
      * intros n1 n2 c1 c2 H1 _ Hp1 _. exfalso. exact (Hgone n1 c1 H1 Hp1).
      * intros j ms Hj. exfalso. apply (Hnone j ms).
        destruct (chk_finally c); simpl in Hj; rewrite Earmed in Hj; exact Hj.
      * intros j c' Hj Hc'. exfalso. exact (Hgone j c' Hj Hc').
    + (* a timer is armed: the check is not the retry's *)
      fold p in Hnp.
      assert (Hfin : chk_finally c = false).
      { destruct (chk_finally c); [|reflexivity].
        destruct (Hfin_t eq_refl) as [_ H]. contradiction. }
      rewrite Hfin in Hfresh' |- *.
      apply (one_retry_update sys _ p Hinv); simpl.
      * exact Hfresh'.
      * intros j q ms' Hq Hj. rewrite Earmed in Hj.
        apply lookup_insert_Some in Hj as [[_ Hv] | [_ Hj]];
          [congruence | exact Hj].
      * intros q Hq. rewrite Etimers. apply lookup_insert_ne. congruence.
      * intros q Hq. rewrite Epending, elem_of_union, elem_of_singleton. tauto.
      * intros j c' Hj _. apply lookup_delete_Some in Hj as [_ Hj]. exact Hj.
      * lia.
      * intros n1 n2 c1 c2 H1 _ Hp1 _. exfalso. exact (Hgone n1 c1 H1 Hp1).
      * intros j ms' Hj. rewrite Earmed in Hj.
        apply lookup_insert_Some in Hj as [[<- _] | [_ Hj]];
          [|exfalso; exact (Hnone j ms' Hj)].
        split; [rewrite Etimers; apply lookup_insert_eq|].
        split; [rewrite Epending; apply elem_of_union_r, elem_of_singleton;
                reflexivity|].
        intros (j & c' & Hj & Hc'). exact (Hgone j c' Hj Hc').
      * intros j c' Hj Hc'. exfalso. exact (Hgone j c' Hj Hc').
  - (* the expiry of a timer *)
    simpl in Hfresh' |- *. unfold retry_callback in Hfresh' |- *.
    destruct (armed (service sys) !! k) as [[p ms]|] eqn:Hk; [|exact Hinv].
    destruct (Hb k p ms Hk) as (Ht & Hp & Hnb).
    assert (Hother : ∀ j ms', delete k (armed (service sys)) !! j = Some (p, ms')
                              -> False).
    { intros j ms' Hj. apply lookup_delete_Some in Hj as [Hne Hj].
      destruct (Hb j p ms' Hj) as (Ht' & _). congruence. }
    unfold checkProvider_begin in Hfresh' |- *.
    destruct (find (fun d => bool_decide (id d = p)) defs) as [def|] eqn:Hf;
      simpl in Hfresh' |- *.
    + apply (one_retry_update sys _ p Hinv); simpl.
      * exact Hfresh'.
      * intros j q ms' _ Hj. apply lookup_delete_Some in Hj as [_ Hj]. exact Hj.
      * intros q Hq. apply lookup_delete_ne. congruence.
      * intros q _. reflexivity.
      * intros j c Hj Hc. apply lookup_insert_Some in Hj as [[_ <-] | [_ Hj]];
          [simpl in Hc; congruence | exact Hj].
      * lia.
      * intros n1 n2 c1 c2 H1 H2 Hp1 Hp2.
        apply lookup_insert_Some in H1 as [[<- _] | [_ H1]];
          [|exfalso; apply Hnb; exists n1, c1; split; assumption].
        apply lookup_insert_Some in H2 as [[<- _] | [_ H2]];
          [reflexivity | exfalso; apply Hnb; exists n2, c2; split; assumption].
      * intros j ms' Hj. exfalso. exact (Hother j ms' Hj).
      * intros j c Hj Hc. apply lookup_insert_Some in Hj as [[<- <-] | [_ Hj]];
          [|exfalso; apply Hnb; exists j, c; split; assumption].
        split; [lia|]. simpl. split; [intros _; split; [exact Hp | reflexivity]|].
        discriminate.
    + apply (one_retry_update sys _ p Hinv); simpl.
      * exact Hfresh'.
      * intros j q ms' _ Hj. apply lookup_delete_Some in Hj as [_ Hj]. exact Hj.
      * intros q Hq. apply lookup_delete_ne. congruence.
      * intros q Hq. rewrite elem_of_difference, elem_of_singleton. tauto.
      * intros j c Hj _. exact Hj.
      * lia.
      * intros n1 n2 c1 c2 H1 _ Hp1 _. exfalso. apply Hnb.
        exists n1, c1. split; assumption.
      * intros j ms' Hj. exfalso. exact (Hother j ms' Hj).
      * intros j c Hj Hc. exfalso. apply Hnb. exists j, c. split; assumption.
Qed.

Lemma one_retry_boot : one_retry_invariant boot.
Proof.
  unfold one_retry_invariant, handles_fresh. simpl.
  split; [intros k v H; rewrite lookup_empty in H; discriminate|].
  split; [intros n1 n2 c1 c2 H; rewrite lookup_empty in H; discriminate|].
  split; [intros k p ms H; rewrite lookup_empty in H; discriminate|].
  intros n c H. rewrite lookup_empty in H. discriminate.
Qed.

Lemma orderly_invariant (evs : list Event) :
  ∀ sys, one_retry_invariant sys -> orderly_from defs sys evs ->
         one_retry_invariant (fold_left (step defs) evs sys).
Proof.
  induction evs as [|ev evs IH]; intros sys Hinv Ho; [exact Hinv|].
  destruct Ho as [Hev Ho]. simpl. apply IH; [|exact Ho].
  apply step_one_retry; assumption.
Qed.

End Orderly.

(** X20.  As long as no check of a provider is requested while another
    check of that provider is in flight, and no caller passes the reason
    timeout-retry itself, at most one retry timer is armed per provider at
    any time, and an armed timer is the one the service remembers for its
    provider, with the pending flag of the provider set. *)
Theorem X20_orderly_checks_one_retry_timer (defs : list CliDefinition)
    (evs : list Event) :
  orderly defs evs ->
  let s := service (exec defs evs) in
  (∀ p k1 k2 ms1 ms2,
     armed s !! k1 = Some (p, ms1) -> armed s !! k2 = Some (p, ms2) -> k1 = k2)
  ∧ (∀ p k ms, armed s !! k = Some (p, ms) ->
       timeoutRetryTimers s !! p = Some k ∧ p ∈ timeoutRetryPending s).
Proof.
  intros Ho s.
  destruct (orderly_invariant defs evs boot one_retry_boot Ho)
    as (_ & _ & Hb & _).
  fold (exec defs evs) in Hb. split.
  - intros p k1 k2 ms1 ms2 H1 H2.
    destruct (Hb k1 p ms1 H1) as (Ht1 & _).
    destruct (Hb k2 p ms2 H2) as (Ht2 & _).
    simpl in Ht1, Ht2. congruence.
  - intros p k ms Hk. destruct (Hb k p ms Hk) as (Ht & Hp & _).
    split; assumption.
Qed.

Lemma X20_witness :
  orderly [def_x] trace_orderly
  ∧ armed (service (exec [def_x] trace_orderly)) !! 1%nat = Some ("x", 12000)
  ∧ timeoutRetryTimers (service (exec [def_x] trace_orderly)) !! "x"
    = Some 1%nat.
Proof.
  assert (Ho : orderly [def_x] trace_orderly).
  { unfold orderly, trace_orderly. cbn [orderly_from].
    split; [|split; [exact I|split; [|split; exact I]]].
    - split; [discriminate|]. intros (n & c & H & _).
      unfold boot in H. cbn [inflight] in H.
      rewrite lookup_empty in H. discriminate.
    - split; [discriminate|]. intros (n & c & H & _).
      assert (He : inflight
                     (step [def_x] (step [def_x] boot (Call "x" manual None))
                        (Settle 0 env_slow 3000 [])) = ∅)
        by (vm_compute; reflexivity).
      rewrite He, lookup_empty in H. discriminate. }
  split; [exact Ho|].
  destruct (X20_orderly_checks_one_retry_timer [def_x] trace_orderly Ho)
    as [_ H].
  assert (Hk : armed (service (exec [def_x] trace_orderly)) !! 1%nat
               = Some ("x", 12000)) by reflexivity.
  split; [exact Hk|]. destruct (H "x" 1%nat 12000 Hk) as [Ht _]. exact Ht.
Defined.

(** ** truncate *)

Section Truncate.

Local Arguments String.append !_ _ / : simpl nomatch.

Lemma substring_0_length (m : nat) (s : string) :
  (m <= String.length s)%nat -> String.length (String.substring 0 m s) = m.
Proof.
  revert s. induction m as [|m IH]; intros s Hm.
  - destruct s; reflexivity.
  - destruct s as [|c s]; simpl in *; [lia|]. rewrite IH; [reflexivity | lia].
Qed.

Lemma substring_0_app (m : nat) (s e : string) :
  (m <= String.length s)%nat ->
  String.substring 0 m (String.substring 0 m s +:+ e) = String.substring 0 m s.
Proof.
  revert s. induction m as [|m IH]; intros s Hm.
  - destruct s; simpl; destruct e; reflexivity.
  - destruct s as [|c s]; simpl in *; [lia|]. rewrite IH; [reflexivity | lia].
Qed.

(** X21.  truncate returns an input of at most max code units unchanged,
    the empty input included; a longer input is cut to its first max code
    units followed by the suffix.  The result is never longer than max plus
    the length of the suffix, and it begins as the input does. *)
Theorem X21_truncate_bounds (ellipsis input : string) (max : nat) :
  ((String.length input <= max)%nat -> truncate ellipsis input max = input)
  ∧ ((max < String.length input)%nat ->
     truncate ellipsis input max = String.substring 0 max input +:+ ellipsis
     ∧ String.length (truncate ellipsis input max)
       = (max + String.length ellipsis)%nat)
  ∧ (String.length (truncate ellipsis input max)
     <= max + String.length ellipsis)%nat
  ∧ String.substring 0 max (truncate ellipsis input max)
    = String.substring 0 max input.
Proof.
  unfold truncate.
  destruct (Nat.ltb max (String.length input)) eqn:Hlt.
  - apply Nat.ltb_lt in Hlt.
    assert (Ht : Js.truthy input = true) by (destruct input; simpl in *; [lia | reflexivity]).
    rewrite Ht. simpl.
    assert (Hlen : String.length (String.substring 0 max input +:+ ellipsis)
                   = (max + String.length ellipsis)%nat).
    { rewrite slength_app, substring_0_length; [reflexivity | lia]. }
    split; [intros H; lia|]. split; [intros _; split; [reflexivity | exact Hlen]|].
    split; [lia|]. apply substring_0_app. lia.
  - apply Nat.ltb_ge in Hlt. rewrite andb_false_r.
    split; [reflexivity|]. split; [intros H; lia|]. split; [lia | reflexivity].
Qed.

End Truncate.

(** ** A retry follows a connected verdict *)

Lemma shouldRetryTimeout_connected (def : CliDefinition) (r : CommandResult)
    (opts : option CheckOpts) :
  statusResolver def = None -> shouldRetryTimeout r opts = true ->
  resolveStatus def r = connected.
Proof.
  intros Hd H. unfold shouldRetryTimeout in H.
  apply andb_true_iff in H as [H _]. apply andb_true_iff in H as [Ht Hev].
  apply orb_true_iff in Hev as [Hp | Ho].
  - apply resolveStatus_path; assumption.
  - apply resolveStatus_timeout_output; [exact Hd | |].
    + apply is_true_iff. exact Ht.
    + apply truthy_iff. exact Ho.
Qed.

(** X22.  For a definition without a status resolver, a check that arms a
    retry timer has just been classified as connected: the status it stored
    says installed.  The retry is therefore never what makes a provider
    appear; it can only confirm the verdict or take it back. *)
Theorem X22_retry_follows_connected (defs : list CliDefinition) (sys : System)
    (n : nat) (c : Check) (env : Env) (now : Z) (windows : list BrowserWindow) :
  inflight sys !! n = Some c ->
  statusResolver (chk_def c) = None ->
  let r := run (tryCommands env (chk_def c) (chk_timeoutMs c)) in
  let sys' := step defs sys (Settle n env now windows) in
  armed (service sys') <> armed (service sys) ->
  resolveStatus (chk_def c) r = connected
  ∧ ∃ st, providerStatusCache (service sys') !! id (chk_def c) = Some st
          ∧ installed st = true.
Proof.
  intros Hn Hd r sys' Hchg.
  assert (Hs : shouldRetryTimeout r (chk_opts c) = true).
  { destruct (shouldRetryTimeout r (chk_opts c)) eqn:Hs; [reflexivity|].
    exfalso. apply Hchg. subst sys'.
    rewrite (step_settle_armed defs sys n c env now windows Hn).
    rewrite checkProvider_resume_armed. fold r. rewrite Hs. reflexivity. }
  pose proof (shouldRetryTimeout_connected (chk_def c) r (chk_opts c) Hd Hs) as Hc.
  split; [exact Hc|].
  exists (persisted_status (chk_def c) r now). split.
  - subst sys'. rewrite (step_settle_service defs sys n c env now windows Hn).
    fold r. cbv zeta.
    destruct (checkProvider_resume_store c r now windows (service sys)) as [H1 _].
    destruct (chk_finally c); simpl; rewrite H1; apply lookup_insert_eq.
  - simpl. rewrite Hc. reflexivity.
Qed.

Lemma X22_witness :
  let sys := exec [def_x] [Call "x" manual None] in
  let sys' := step [def_x] sys (Settle 0 env_slow 3000 []) in
  inflight sys !! 0%nat = Some check_x
  ∧ armed (service sys') !! 0%nat = Some ("x", 12000)
  ∧ resolveStatus def_x (run (tryCommands env_slow def_x 3000)) = connected.
Proof.
  intros sys sys'.
  assert (Hn : inflight sys !! 0%nat = Some check_x) by reflexivity.
  split; [exact Hn|]. split; [reflexivity|].
  destruct (X22_retry_follows_connected [def_x] sys 0 check_x env_slow 3000 []
              Hn eq_refl) as [H _].
  - intros Heq. apply (f_equal (fun m => m !! 0%nat)) in Heq.
    vm_compute in Heq. discriminate.
  - exact H.
Defined.
